(** * Ordered-array searches and BST routines of the codestudio collection

    A shallow embedding of four leaf routines of the repository:

    - [search]                    (find_target_in_rotated_sorted_array.cpp)
    - [findTargetInMountainArray] (with [findPeakIndex] and the two
                                   [std::lower_bound] wrappers)
    - [Solution::isValidBST]      (iterative in-order validation)
    - [Solution::sortedArrayToBST] / [Solution::build]

    Conventions of the embedding.

    - An [int] is a [Z]; every [int] result of arithmetic or of a conversion
      goes through [to_int], the two's complement wrap to 32 bits.  A
      [size_t] is a [Z] reduced modulo [2^64].
    - A [std::vector<int>] is a [list Z].  [nums[i]] is [at_index]: it
      yields [Fault] when [i] is not a valid position, so a run that ends in
      [Ret] performed only in-bounds accesses.
    - A [while] loop is a fuelled iteration of its body ([while_loop]); a
      run that exhausts its fuel ends in [OutOfFuel].  The entry points
      supply a fuel computed from the size of the input, and the theorems
      show that it is never exhausted.
    - A [std::unique_ptr<TreeNode<int>>] is a [tree]: exclusive ownership
      rules out sharing and cycles. *)

From Stdlib Require Import ZArith List Lia Bool Sorted.
From Stdlib Require String DecimalString.
Import ListNotations.
Local Open Scope Z_scope.

(** ** Outcomes *)

Inductive outcome (A : Type) : Type :=
| Ret (a : A)     (* normal completion *)
| Fault           (* an access outside the vector, or [top] of an empty stack *)
| OutOfFuel.        (* the fuel of the model ran out *)

Arguments Ret {A} a.
Arguments Fault {A}.
Arguments OutOfFuel {A}.

Definition bind {A B : Type} (m : outcome A) (k : A -> outcome B) : outcome B :=
  match m with
  | Ret a => k a
  | Fault => Fault
  | OutOfFuel => OutOfFuel
  end.

Notation "x <- m ;; k" := (bind m (fun x => k))
  (at level 61, m at next level, right associativity).
Notation "' p <- m ;; k" := (bind m (fun p => k))
  (at level 61, p pattern, m at next level, right associativity).

(** A loop body either leaves the loop with a result or continues with the
    next state. *)
Inductive step (S R : Type) : Type :=
| Break (r : R)
| Continue (s : S).

Arguments Break {S R} r.
Arguments Continue {S R} s.

Fixpoint while_loop {S R : Type} (body : S -> outcome (step S R))
         (fuel : nat) (s : S) : outcome R :=
  match fuel with
  | O => OutOfFuel
  | Datatypes.S fuel' =>
      st <- body s ;;
      match st with
      | Break r => Ret r
      | Continue s' => while_loop body fuel' s'
      end
  end.

(** ** Machine integers and vectors *)

Definition INT_MIN : Z := - 2 ^ 31.
Definition INT_MAX : Z := 2 ^ 31 - 1.

(** Conversion to [int]: reduction modulo [2^32] into [INT_MIN .. INT_MAX]. *)
Definition to_int (z : Z) : Z := (z + 2 ^ 31) mod 2 ^ 32 - 2 ^ 31.

(** Reduction to [size_t]. *)
Definition to_size_t (z : Z) : Z := z mod 2 ^ 64.

Definition vec := list Z.

Definition size (v : vec) : Z := Z.of_nat (length v).

(** [v[i]] for an index that was converted to [size_t]. *)
Definition at_index (v : vec) (i : Z) : outcome Z :=
  if (0 <=? i) && (i <? size v) then
    match nth_error v (Z.to_nat i) with
    | Some x => Ret x
    | None => Fault
    end
  else Fault.

(** [v.begin() + i]: an iterator is a position [0 .. size v]; forming any
    other one is undefined. *)
Definition iter (v : vec) (i : Z) : outcome Z :=
  if (0 <=? i) && (i <=? size v) then Ret i else Fault.

(** [*it]. *)
Definition deref (v : vec) (it : Z) : outcome Z := at_index v it.

(** ** find_target_in_rotated_sorted_array.cpp *)

Module Rotated.

(** Loop state: [(left, right)]. *)
Definition search_body (nums : vec) (target : Z) (s : Z * Z)
  : outcome (step (Z * Z) Z) :=
  let left := fst s in
  let right := snd s in
  if left <=? right then
    let mid := to_int (left + to_int (Z.quot (to_int (right - left)) 2)) in
    x_mid <- at_index nums (to_size_t mid) ;;
    if x_mid =? target then Ret (Break mid)
    else
      x_left <- at_index nums (to_size_t left) ;;
      if x_left <=? x_mid then
        (* left half is sorted *)
        if target >=? x_left then
          if target <? x_mid
          then Ret (Continue (left, to_int (mid - 1)))
          else Ret (Continue (to_int (mid + 1), right))
        else Ret (Continue (to_int (mid + 1), right))
      else
        (* right half is sorted *)
        if target >? x_mid then
          x_right <- at_index nums (to_size_t right) ;;
          if target <=? x_right
          then Ret (Continue (to_int (mid + 1), right))
          else Ret (Continue (left, to_int (mid - 1)))
        else Ret (Continue (left, to_int (mid - 1)))
  else Ret (Break (-1)).

Definition search_fuel (nums : vec) : nat := Datatypes.S (length nums).

Definition search (nums : vec) (target : Z) : outcome Z :=
  let left := 0 in
  let right := to_int (to_size_t (size nums - 1)) in
  while_loop (search_body nums target) (search_fuel nums) (left, right).

End Rotated.

(** ** The mountain-array search of cpp17_features.cpp *)

Module Mountain.

(** Loop state: [(left, right)]. *)
Definition findPeakIndex_body (arr : vec) (s : Z * Z)
  : outcome (step (Z * Z) Z) :=
  let left := fst s in
  let right := snd s in
  if left <? right then
    let mid := to_int (left + to_int (Z.quot (to_int (right - left)) 2)) in
    x_mid <- at_index arr (to_size_t mid) ;;
    x_next <- at_index arr (to_size_t (to_int (mid + 1))) ;;
    if x_mid <? x_next
    then Ret (Continue (to_int (mid + 1), right))
    else Ret (Continue (left, mid))
  else Ret (Break left).

Definition findPeakIndex (arr : vec) : outcome Z :=
  let left := 0 in
  let right := to_int (to_size_t (size arr - 1)) in
  while_loop (findPeakIndex_body arr) (Datatypes.S (length arr)) (left, right).

(** [std::lower_bound(first, last, value, comp)] is library code; it is
    embedded as the loop every standard library ships: halve the length,
    look at the middle element, keep the half that can still hold the
    answer.  Loop state: [(first, len)], both of the iterator's difference
    type. *)
Definition lower_bound_body (arr : vec) (value : Z) (comp : Z -> Z -> bool)
           (s : Z * Z) : outcome (step (Z * Z) Z) :=
  let first := fst s in
  let len := snd s in
  if len >? 0 then
    let half := Z.shiftr len 1 in
    middle <- iter arr (first + half) ;;
    x <- deref arr middle ;;
    if comp x value then
      first' <- iter arr (middle + 1) ;;
      Ret (Continue (first', len - half - 1))
    else Ret (Continue (first, half))
  else Ret (Break first).

Definition lower_bound (arr : vec) (first last : Z) (value : Z)
           (comp : Z -> Z -> bool) : outcome Z :=
  let len := last - first in
  while_loop (lower_bound_body arr value comp)
             (Datatypes.S (Z.to_nat len)) (first, len).

(** The body shared by the two wrappers, which differ in the comparator
    only: [operator<] and [std::greater<int>()]. *)
Definition binarySearchWith (comp : Z -> Z -> bool)
           (arr : vec) (target left right : Z) : outcome Z :=
  first <- iter arr left ;;
  r <- iter arr right ;;
  last <- iter arr (r + 1) ;;
  it <- lower_bound arr first last target comp ;;
  if negb (it =? last) then
    x <- deref arr it ;;
    if x =? target then Ret (to_int it) else Ret (-1)
  else Ret (-1).

Definition binarySearchAscending : vec -> Z -> Z -> Z -> outcome Z :=
  binarySearchWith Z.ltb.

Definition binarySearchDescending : vec -> Z -> Z -> Z -> outcome Z :=
  binarySearchWith Z.gtb.

Definition findTargetInMountainArray (arr : vec) (target : Z) : outcome Z :=
  match arr with
  | [] => Ret (-1)
  | _ :: _ =>
      peakIndex <- findPeakIndex arr ;;
      result <- binarySearchAscending arr target 0 peakIndex ;;
      if negb (result =? -1) then Ret result
      else binarySearchDescending arr target (to_int (peakIndex + 1))
                                  (to_int (to_size_t (size arr - 1)))
  end.

End Mountain.

(** ** Binary trees and the two [Solution] classes *)

(** [Leaf] is the null pointer. *)
Inductive tree : Type :=
| Leaf
| Node (l : tree) (v : Z) (r : tree).

Fixpoint inorder (t : tree) : list Z :=
  match t with
  | Leaf => []
  | Node l v r => inorder l ++ v :: inorder r
  end.

Fixpoint preorder (t : tree) : list Z :=
  match t with
  | Leaf => []
  | Node l v r => v :: preorder l ++ preorder r
  end.

Fixpoint nodes (t : tree) : nat :=
  match t with
  | Leaf => O
  | Node l _ r => Datatypes.S (nodes l + nodes r)
  end.

Module BST.

Definition is_null (p : tree) : bool :=
  match p with Leaf => true | Node _ _ _ => false end.

(** [p->val], [p->right]: undefined through a null pointer. *)
Definition val (p : tree) : outcome Z :=
  match p with Leaf => Fault | Node _ v _ => Ret v end.

Definition right (p : tree) : outcome tree :=
  match p with Leaf => Fault | Node _ _ r => Ret r end.

(** The inner loop [while (curr != nullptr) { stack.push(curr);
    curr = curr->left.get(); }]; it follows left children, so it is
    structural, and it leaves [curr] null. *)
Fixpoint push_left (curr : tree) (stack : list tree) : list tree :=
  match curr with
  | Leaf => stack
  | Node l _ _ => push_left l (curr :: stack)
  end.

(** Outer loop state: [(curr, stack, prev)]; the top of the stack is the
    head of the list. *)
Definition isValidBST_body (s : tree * list tree * tree)
  : outcome (step (tree * list tree * tree) bool) :=
  let '(curr, stack, prev) := s in
  if negb (is_null curr) || negb (Nat.eqb (length stack) 0) then
    match push_left curr stack with
    | [] => Fault
    | curr :: stack =>
        out_of_order <-
          (if negb (is_null prev) then
             c <- val curr ;; p <- val prev ;; Ret (c <=? p)
           else Ret false) ;;
        if (out_of_order : bool) then Ret (Break false)
        else
          next <- right curr ;;
          Ret (Continue (next, stack, curr))
    end
  else Ret (Break true).

Definition isValidBST (root : tree) : outcome bool :=
  while_loop isValidBST_body (Datatypes.S (nodes root)) (root, [], Leaf).

(** [build]: the cursor [index] is passed by reference, so the embedding
    returns its final value next to the subtree.  The fuel bounds the
    depth of the recursion. *)
Fixpoint build (fuel : nat) (nums : vec) (index : Z)
         (lower_bound upper_bound : Z) : outcome (tree * Z) :=
  match fuel with
  | O => OutOfFuel
  | Datatypes.S fuel' =>
      if index >=? to_int (size nums) then Ret (Leaf, index)
      else
        val <- at_index nums (to_size_t index) ;;
        if (val <=? lower_bound) || (val >=? upper_bound) then Ret (Leaf, index)
        else
          let index := to_int (index + 1) in
          ' (l, index) <- build fuel' nums index lower_bound val ;;
          ' (r, index) <- build fuel' nums index val upper_bound ;;
          Ret (Node l val r, index)
  end.

(** [sortedArrayToBST] together with the final value of its local
    [index] (0 when the early return is taken). *)
Definition sortedArrayToBST_run (nums : vec) : outcome (tree * Z) :=
  match nums with
  | [] => Ret (Leaf, 0)
  | _ :: _ =>
      let index := 0 in
      build (Datatypes.S (length nums)) nums index INT_MIN INT_MAX
  end.

Definition sortedArrayToBST (nums : vec) : outcome tree :=
  ' (root, _) <- sortedArrayToBST_run nums ;; Ret root.

(** [std::cout << x] for an [int]: its decimal digits, with a leading
    minus sign when negative. *)
Definition show_int (x : Z) : String.string :=
  DecimalString.NilZero.string_of_int (Z.to_int x).

(** The text [" "]. *)
Definition space : String.string :=
  String.String (Ascii.ascii_of_nat 32) String.EmptyString.

(** [printTree]: the text written so far is threaded through the calls. *)
Fixpoint printTree (node : tree) (cout : String.string) : String.string :=
  match node with
  | Leaf => cout
  | Node l val r =>
      let cout := String.append (String.append cout (show_int val)) space in
      let cout := printTree l cout in
      printTree r cout
  end.

End BST.

(** ** The small functions of the C++17 showcase in cpp17_features.cpp *)

Module Cpp17.

(** [sum_all(args...)], the left fold [(... + args)], on a pack of [int]s;
    a unary fold over [+] needs a non-empty pack, so the first argument is
    given apart. *)
Definition sum_all (a : Z) (args : list Z) : Z :=
  fold_left (fun acc x => to_int (acc + x)) args a.

(** [multiply_all(args...)], the right fold [(args * ...)], on a pack of
    [int]s. *)
Fixpoint multiply_all (a : Z) (args : list Z) : Z :=
  match args with
  | [] => a
  | b :: rest => to_int (a * multiply_all b rest)
  end.

(** [divide]: [None] is [std::nullopt]; [/] on [int] truncates toward
    zero. *)
Definition divide (a b : Z) : option Z :=
  if b =? 0 then None else Some (to_int (Z.quot a b)).

End Cpp17.

(** ** Specification vocabulary *)

(** The vector's size is representable as an [int]: the programs keep
    sizes and positions in [int] variables. *)
Definition fits_int (v : vec) : Prop := size v <= INT_MAX.

(** [v[i]] as a total function, for statements. *)
Definition get (v : vec) (i : Z) : Z := nth (Z.to_nat i) v 0.

Definition strictly_increasing (l : list Z) : Prop := StronglySorted Z.lt l.

Definition strictly_decreasing (l : list Z) : Prop := StronglySorted Z.gt l.

(** An ascending sequence [s] rotated at pivot [k]: the run from [k] on
    comes first, then the run before [k]. *)
Definition rotate (k : nat) (s : list Z) : list Z := skipn k s ++ firstn k s.

(** Strictly up to position [peak], strictly down from it; the peak may be
    the first or the last position. *)
Definition mountain (arr : vec) (peak : Z) : Prop :=
  0 <= peak < size arr /\
  (forall i j, 0 <= i -> i < j -> j <= peak -> get arr i < get arr j) /\
  (forall i j, peak <= i -> i < j -> j < size arr -> get arr j < get arr i).

(** Strict binary-search-tree ordering, as bounds inherited from the
    ancestors; [None] is an absent bound. *)
Definition above (lo : option Z) (v : Z) : Prop :=
  match lo with None => True | Some a => a < v end.

Definition below (v : Z) (hi : option Z) : Prop :=
  match hi with None => True | Some b => v < b end.

Fixpoint bst_between (lo hi : option Z) (t : tree) : Prop :=
  match t with
  | Leaf => True
  | Node l v r =>
      above lo v /\ below v hi /\
      bst_between lo (Some v) l /\ bst_between (Some v) hi r
  end.

Definition is_bst (t : tree) : Prop := bst_between None None t.

(** The shape of a rotated ascending vector on positions: two ascending
    runs, [0 .. p-1] and [p .. size-1], every element of the second below
    every element of the first. *)
Definition two_runs (nums : vec) (p : Z) : Prop :=
  0 <= p <= size nums /\
  (forall i j, 0 <= i -> i < j -> j < p -> get nums i < get nums j) /\
  (forall i j, p <= i -> i < j -> j < size nums -> get nums i < get nums j) /\
  (forall i j, 0 <= i -> i < p -> p <= j -> j < size nums ->
               get nums j < get nums i).

(** ** Loop invariants and variants *)

(** [search]: the positions stay inside the vector; the variant is the
    width of the interval. *)
Definition search_inv (nums : vec) (s : Z * Z) : Prop :=
  0 <= fst s /\ snd s < size nums /\ fst s <= snd s + 1.

Definition search_measure (s : Z * Z) : nat := Z.to_nat (snd s - fst s + 1).

Definition search_inv_rot (nums : vec) (target : Z) (s : Z * Z) : Prop :=
  search_inv nums s /\
  forall t, 0 <= t < size nums -> get nums t = target -> fst s <= t <= snd s.

(** [findPeakIndex]: [left <= right] inside the vector; on a mountain the
    peak stays between them. *)
Definition peak_inv (arr : vec) (peak : Z) (s : Z * Z) : Prop :=
  0 <= fst s /\ fst s <= snd s /\ snd s < size arr /\
  (mountain arr peak -> fst s <= peak <= snd s).

Definition peak_measure (s : Z * Z) : nat := Z.to_nat (snd s - fst s).

(** [comp (x, value)] is true on a prefix of the range, as
    [std::lower_bound] asks of its input. *)
Definition partitioned (arr : vec) (value : Z) (comp : Z -> Z -> bool)
           (first last : Z) : Prop :=
  forall i j, first <= i -> i <= j -> j < last ->
              comp (get arr j) value = true -> comp (get arr i) value = true.

(** [std::lower_bound]: the window [first, first + len) stays inside the
    range; on a partitioned range everything before the window compares
    true and the element after it, if any, compares false. *)
Definition lower_bound_inv (arr : vec) (value : Z) (comp : Z -> Z -> bool)
           (first0 last0 : Z) (s : Z * Z) : Prop :=
  first0 <= fst s /\ 0 <= snd s /\ fst s + snd s <= last0 /\
  (partitioned arr value comp first0 last0 ->
   (forall i, first0 <= i -> i < fst s -> comp (get arr i) value = true) /\
   (fst s + snd s < last0 -> comp (get arr (fst s + snd s)) value = false)).

Definition lower_bound_measure (s : Z * Z) : nat := Z.to_nat (snd s).

(** [isValidBST]: the values still to be visited, in visiting order.  A
    node on the stack stands for its own value and its right subtree; its
    left subtree was visited before it was pushed over. *)
Definition pending_node (n : tree) : list Z :=
  match n with
  | Leaf => []
  | Node _ v r => v :: inorder r
  end.

Definition pending (curr : tree) (stack : list tree) : list Z :=
  inorder curr ++ flat_map pending_node stack.

Definition prev_val (prev : tree) : option Z :=
  match prev with
  | Leaf => None
  | Node _ v _ => Some v
  end.

(** The check the traversal performs on the values still to be visited,
    given the value visited last. *)
Fixpoint ascending_after (last : option Z) (l : list Z) : bool :=
  match l with
  | [] => true
  | x :: l' =>
      match last with
      | None => ascending_after (Some x) l'
      | Some p => if x <=? p then false else ascending_after (Some x) l'
      end
  end.

Definition non_null (n : tree) : Prop := n <> Leaf.

(** The invariant fixes the verdict [b] of the whole run. *)
Definition valid_inv (b : bool) (s : tree * list tree * tree) : Prop :=
  let '(curr, stack, prev) := s in
  Forall non_null stack /\
  ascending_after (prev_val prev) (pending curr stack) = b.

Definition valid_measure (s : tree * list tree * tree) : nat :=
  let '(curr, stack, _) := s in length (pending curr stack).

(** [build] stops in front of [rest]: the input is exhausted or its next
    value is outside the open interval. *)
Definition stops (lower upper : Z) (rest : list Z) : Prop :=
  match rest with
  | [] => True
  | x :: _ => x <= lower \/ upper <= x
  end.

(** [findPeakIndex] on any vector: the element left of [left], if any, is
    smaller than the one at [left], and the element right of [right], if
    any, is not greater than the one at [right]. *)
Definition local_peak_inv (arr : vec) (s : Z * Z) : Prop :=
  0 <= fst s /\ fst s <= snd s /\ snd s < size arr /\
  (fst s = 0 \/ get arr (fst s - 1) < get arr (fst s)) /\
  (snd s = size arr - 1 \/ get arr (snd s + 1) <= get arr (snd s)).

(** A value an [int] can hold. *)
Definition in_int (x : Z) : Prop := INT_MIN <= x <= INT_MAX.

(** The text [printTree] writes for a sequence of values. *)
Definition show_all (l : list Z) : String.string :=
  fold_left (fun out x => String.append (String.append out (BST.show_int x)) BST.space)
            l String.EmptyString.

(** * Proofs *)

(** ** The programs' own test inputs *)

Example search_ex1 : Rotated.search [4; 5; 6; 7; 0; 1; 2] 0 = Ret 4.
Proof. reflexivity. Qed.

Example search_ex2 : Rotated.search [4; 5; 6; 7; 0; 1; 2] 3 = Ret (-1).
Proof. reflexivity. Qed.

Example search_ex3 : Rotated.search [1] 0 = Ret (-1).
Proof. reflexivity. Qed.

Example search_ex4 : Rotated.search [1] 1 = Ret 0.
Proof. reflexivity. Qed.

Example search_ex5 : Rotated.search [3; 1] 1 = Ret 1.
Proof. reflexivity. Qed.

Example mountain_ex1 :
  Mountain.findTargetInMountainArray [1; 3; 5; 8; 7; 4; 2] 4 = Ret 5.
Proof. reflexivity. Qed.

Example mountain_ex2 :
  Mountain.findTargetInMountainArray [0; 1; 2; 4; 2; 1] 3 = Ret (-1).
Proof. reflexivity. Qed.

Example mountain_ex3 :
  Mountain.findTargetInMountainArray [1; 2; 3; 4; 5; 3; 1] 5 = Ret 4.
Proof. reflexivity. Qed.

Example mountain_ex4 :
  Mountain.findTargetInMountainArray [1; 2; 3; 4; 5] 1 = Ret 0.
Proof. reflexivity. Qed.

Example mountain_ex5 :
  Mountain.findTargetInMountainArray [5; 4; 3; 2; 1] 3 = Ret 2.
Proof. reflexivity. Qed.

Example isValidBST_ex1 :
  BST.isValidBST (Node (Node Leaf 1 Leaf) 2 (Node Leaf 3 Leaf)) = Ret true.
Proof. reflexivity. Qed.

Example isValidBST_ex2 :
  BST.isValidBST
    (Node (Node Leaf 1 Leaf) 5 (Node (Node Leaf 3 Leaf) 4 (Node Leaf 6 Leaf)))
  = Ret false.
Proof. reflexivity. Qed.

Example sortedArrayToBST_ex1 :
  BST.sortedArrayToBST_run [10; 5; 1; 7; 15; 12; 20]
  = Ret (Node (Node (Node Leaf 1 Leaf) 5 (Node Leaf 7 Leaf)) 10
              (Node (Node Leaf 12 Leaf) 15 (Node Leaf 20 Leaf)), 7).
Proof. reflexivity. Qed.

(** ** Outcomes and loops *)

Section Loops.

Context {S R : Type}.
Variable body : S -> outcome (step S R).
Variable Inv : S -> Prop.
Variable measure : S -> nat.
Variable Post : R -> Prop.

Hypothesis body_ok :
  forall s, Inv s ->
    (exists r, body s = Ret (Break r) /\ Post r) \/
    (exists s', body s = Ret (Continue s') /\ Inv s' /\
                (measure s' < measure s)%nat).

(** Total correctness of a loop from an invariant and a variant: with
    more fuel than the variant the loop returns, and the result satisfies
    the postcondition. *)
Lemma while_loop_total :
  forall fuel s, Inv s -> (measure s < fuel)%nat ->
    exists r, while_loop body fuel s = Ret r /\ Post r.
Proof.
  induction fuel as [|fuel IH]; intros s Hs Hm; [lia|].
  cbn [while_loop].
  destruct (body_ok s Hs) as [(r & -> & Hr) | (s' & -> & Hs' & Hlt)]; cbn.
  - eauto.
  - apply IH; [assumption | lia].
Qed.

End Loops.

(** ** Machine integers and vectors *)

Lemma to_int_id z : INT_MIN <= z <= INT_MAX -> to_int z = z.
Proof.
  unfold INT_MIN, INT_MAX, to_int. intros H.
  rewrite Z.mod_small; lia.
Qed.

Lemma to_size_t_id z : 0 <= z < 2 ^ 64 -> to_size_t z = z.
Proof. unfold to_size_t. intros H. now rewrite Z.mod_small. Qed.

Lemma size_nonneg v : 0 <= size v.
Proof. unfold size. lia. Qed.

Lemma at_index_get v i : 0 <= i < size v -> at_index v i = Ret (get v i).
Proof.
  unfold at_index, get, size. intros H.
  replace ((0 <=? i) && (i <? Z.of_nat (length v))) with true
    by (symmetry; apply andb_true_iff; split; [apply Z.leb_le | apply Z.ltb_lt]; lia).
  destruct (nth_error v (Z.to_nat i)) eqn:E.
  - now rewrite (nth_error_nth _ _ 0 E).
  - apply nth_error_None in E. lia.
Qed.

(** An [int] position inside a vector of representable size reads the
    element at that position. *)
Lemma at_int_get v i :
  fits_int v -> 0 <= i < size v -> at_index v (to_size_t i) = Ret (get v i).
Proof.
  unfold fits_int, INT_MAX. intros Hv Hi.
  rewrite to_size_t_id by lia. now apply at_index_get.
Qed.

Lemma last_position v :
  fits_int v -> v <> [] -> to_int (to_size_t (size v - 1)) = size v - 1.
Proof.
  unfold fits_int, INT_MAX. intros Hv Hne.
  assert (0 < size v) by (unfold size; destruct v; [congruence | cbn; lia]).
  rewrite to_size_t_id by lia. apply to_int_id. unfold INT_MIN, INT_MAX. lia.
Qed.

Lemma last_position_empty : to_int (to_size_t (size [] - 1)) = -1.
Proof. reflexivity. Qed.

(** The midpoint computation [left + (right - left) / 2] on positions. *)
Lemma midpoint v lo hi :
  fits_int v -> 0 <= lo -> lo <= hi -> hi < size v ->
  to_int (lo + to_int (Z.quot (to_int (hi - lo)) 2)) = lo + (hi - lo) / 2.
Proof.
  unfold fits_int, INT_MAX. intros Hv H0 Hle Hhi.
  rewrite (to_int_id (hi - lo)) by (unfold INT_MIN, INT_MAX; lia).
  rewrite Z.quot_div_nonneg by lia.
  assert (0 <= (hi - lo) / 2 <= hi - lo)
    by (split; [apply Z.div_pos; lia | apply Z.div_le_upper_bound; lia]).
  rewrite (to_int_id ((hi - lo) / 2)) by (unfold INT_MIN, INT_MAX; lia).
  apply to_int_id. unfold INT_MIN, INT_MAX. lia.
Qed.

(** ** Rotated search *)

(** The loop body of [search] on positions of the vector: the wraps and the
    bounds checks disappear. *)
Lemma search_body_eq nums target lo hi :
  fits_int nums -> 0 <= lo -> hi < size nums ->
  Rotated.search_body nums target (lo, hi) =
    if lo <=? hi then
      let mid := lo + (hi - lo) / 2 in
      if get nums mid =? target then Ret (Break mid)
      else if get nums lo <=? get nums mid then
        if (target >=? get nums lo) && (target <? get nums mid)
        then Ret (Continue (lo, mid - 1))
        else Ret (Continue (mid + 1, hi))
      else
        if (target >? get nums mid) && (target <=? get nums hi)
        then Ret (Continue (mid + 1, hi))
        else Ret (Continue (lo, mid - 1))
    else Ret (Break (-1)).
Proof.
  intros Hv Hlo Hhi. unfold Rotated.search_body. cbn [fst snd].
  destruct (lo <=? hi) eqn:Hle; [|reflexivity].
  apply Z.leb_le in Hle.
  rewrite (midpoint nums) by assumption.
  cbv zeta.
  assert (Hmid : lo <= lo + (hi - lo) / 2 <= hi).
  { assert (0 <= (hi - lo) / 2 <= hi - lo)
      by (split; [apply Z.div_pos; lia | apply Z.div_le_upper_bound; lia]).
    lia. }
  set (mid := lo + (hi - lo) / 2) in *.
  assert (Hfit := Hv). unfold fits_int, INT_MAX in Hfit.
  rewrite !at_int_get by (assumption || lia). cbn [bind].
  rewrite !to_int_id by (unfold INT_MIN, INT_MAX; lia).
  destruct (get nums mid =? target); [reflexivity|].
  destruct (get nums lo <=? get nums mid).
  - destruct (target >=? get nums lo), (target <? get nums mid); reflexivity.
  - destruct (target >? get nums mid); [|reflexivity].
    cbn [andb bind]. reflexivity.
Qed.

Lemma half_bounds lo hi : lo <= hi -> lo <= lo + (hi - lo) / 2 <= hi.
Proof.
  intros H.
  assert (0 <= (hi - lo) / 2 <= hi - lo)
    by (split; [apply Z.div_pos; lia | apply Z.div_le_upper_bound; lia]).
  lia.
Qed.

Lemma half_lt lo hi : lo < hi -> lo + (hi - lo) / 2 < hi.
Proof.
  intros H.
  assert ((hi - lo) / 2 < hi - lo) by (apply Z.div_lt_upper_bound; lia).
  lia.
Qed.

(** Inside one run the elements ascend. *)
Lemma two_runs_mono nums p :
  two_runs nums p ->
  forall i j, 0 <= i -> i <= j -> j < size nums -> j < p \/ p <= i ->
              get nums i <= get nums j.
Proof.
  intros (Hp & Hup1 & Hup2 & _) i j Hi Hij Hj Hrun.
  destruct (Z.eq_dec i j) as [-> | Hne]; [lia|].
  destruct Hrun; [pose proof (Hup1 i j) | pose proof (Hup2 i j)]; lia.
Qed.

(** The elements of a two-run vector are pairwise distinct. *)
Lemma two_runs_inj nums p :
  two_runs nums p ->
  forall i j, 0 <= i < size nums -> 0 <= j < size nums ->
              get nums i = get nums j -> i = j.
Proof.
  intros (Hp & Hup1 & Hup2 & Hcross) i j Hi Hj Heq.
  destruct (Z.lt_trichotomy i j) as [Hlt | [? | Hlt]]; [|assumption|]; exfalso.
  - destruct (Z_lt_le_dec j p), (Z_lt_le_dec i p);
      [pose proof (Hup1 i j) | lia | pose proof (Hcross i j) | pose proof (Hup2 i j)];
      lia.
  - destruct (Z_lt_le_dec i p), (Z_lt_le_dec j p);
      [pose proof (Hup1 j i) | lia | pose proof (Hcross j i) | pose proof (Hup2 j i)];
      lia.
Qed.

Section SearchLoop.

Variable nums : vec.
Variable target : Z.
Hypothesis nums_fits : fits_int nums.

(** On any vector [search] returns, and what it returns is [-1] or a
    position that holds the target. *)
Lemma search_loop_total s fuel :
  search_inv nums s -> (search_measure s < fuel)%nat ->
  exists r, while_loop (Rotated.search_body nums target) fuel s = Ret r /\
            (r = -1 \/ (0 <= r < size nums /\ get nums r = target)).
Proof.
  intros Hs Hm. revert fuel s Hs Hm.
  apply (while_loop_total _ (search_inv nums) search_measure).
  intros [lo hi] (H0 & Hhi & Hle). cbn [fst snd] in *.
  rewrite search_body_eq by assumption.
  destruct (lo <=? hi) eqn:E; [apply Z.leb_le in E | left; eauto].
  cbv zeta.
  assert (Hmid : lo <= lo + (hi - lo) / 2 <= hi).
  { assert (0 <= (hi - lo) / 2 <= hi - lo)
      by (split; [apply Z.div_pos; lia | apply Z.div_le_upper_bound; lia]).
    lia. }
  set (mid := lo + (hi - lo) / 2) in *.
  unfold search_inv, search_measure.
  destruct (get nums mid =? target) eqn:Em.
  { apply Z.eqb_eq in Em. left. eexists; split; [reflexivity|]. right. lia. }
  right.
  destruct (get nums lo <=? get nums mid);
    match goal with |- context [if ?c then _ else _] => destruct c end;
    eexists; (split; [reflexivity|]); cbn [fst snd]; lia.
Qed.

(** With the two-run shape the interval always contains the position of
    the target, if there is one. *)
Variable p : Z.
Hypothesis nums_runs : two_runs nums p.

Lemma search_loop_rotated s fuel :
  search_inv_rot nums target s -> (search_measure s < fuel)%nat ->
  exists r, while_loop (Rotated.search_body nums target) fuel s = Ret r /\
            ((0 <= r < size nums /\ get nums r = target) \/
             (r = -1 /\ forall t, 0 <= t < size nums -> get nums t <> target)).
Proof.
  intros Hs Hm. revert fuel s Hs Hm.
  apply (while_loop_total _ (search_inv_rot nums target) search_measure).
  intros [lo hi] ((H0 & Hhi & Hle) & Hin). cbn [fst snd] in *.
  rewrite search_body_eq by assumption.
  destruct (lo <=? hi) eqn:E; [apply Z.leb_le in E | apply Z.leb_gt in E].
  2:{ left. eexists; split; [reflexivity|]. right. split; [reflexivity|].
      intros t Ht Heq. specialize (Hin t Ht Heq). lia. }
  cbv zeta.
  pose proof (half_bounds lo hi E) as Hmid.
  set (mid := lo + (hi - lo) / 2) in *.
  destruct (get nums mid =? target) eqn:Em;
    [apply Z.eqb_eq in Em | apply Z.eqb_neq in Em].
  { left. eexists; split; [reflexivity|]. left. lia. }
  right.
  destruct nums_runs as (Hp & Hup1 & Hup2 & Hcross).
  unfold search_inv_rot, search_inv, search_measure.
  assert (Hstep :
    forall t, 0 <= t < size nums -> get nums t = target ->
      if get nums lo <=? get nums mid then
        if (target >=? get nums lo) && (target <? get nums mid)
        then t <= mid - 1 else mid + 1 <= t
      else
        if (target >? get nums mid) && (target <=? get nums hi)
        then mid + 1 <= t else t <= mid - 1).
  { intros t Ht Heq. specialize (Hin t Ht Heq).
    assert (t <> mid) by congruence.
    pose proof (two_runs_mono nums p nums_runs) as Hmono.
    pose proof (two_runs_inj nums p nums_runs) as Hinj.
    pose proof (Hinj t lo ltac:(lia) ltac:(lia)).
    pose proof (Hinj t hi ltac:(lia) ltac:(lia)).
    pose proof (Hinj lo mid ltac:(lia) ltac:(lia)).
    pose proof (Hinj mid hi ltac:(lia) ltac:(lia)).
    clear Hinj Hup1 Hup2.
    (* where the four positions lie with respect to the second run *)
    destruct (Z_lt_le_dec t mid), (Z_lt_le_dec lo p), (Z_lt_le_dec mid p),
      (Z_lt_le_dec t p), (Z_lt_le_dec hi p); try lia;
      try pose proof (Hmono lo mid ltac:(lia) ltac:(lia) ltac:(lia) ltac:(lia));
      try pose proof (Hmono lo t ltac:(lia) ltac:(lia) ltac:(lia) ltac:(lia));
      try pose proof (Hmono t mid ltac:(lia) ltac:(lia) ltac:(lia) ltac:(lia));
      try pose proof (Hmono mid t ltac:(lia) ltac:(lia) ltac:(lia) ltac:(lia));
      try pose proof (Hmono mid hi ltac:(lia) ltac:(lia) ltac:(lia) ltac:(lia));
      try pose proof (Hmono t hi ltac:(lia) ltac:(lia) ltac:(lia) ltac:(lia));
      try pose proof (Hcross lo mid ltac:(lia) ltac:(lia) ltac:(lia) ltac:(lia));
      try pose proof (Hcross lo t ltac:(lia) ltac:(lia) ltac:(lia) ltac:(lia));
      try pose proof (Hcross t mid ltac:(lia) ltac:(lia) ltac:(lia) ltac:(lia));
      try pose proof (Hcross mid t ltac:(lia) ltac:(lia) ltac:(lia) ltac:(lia));
      try pose proof (Hcross mid hi ltac:(lia) ltac:(lia) ltac:(lia) ltac:(lia));
      try pose proof (Hcross t hi ltac:(lia) ltac:(lia) ltac:(lia) ltac:(lia));
      try pose proof (Hcross lo hi ltac:(lia) ltac:(lia) ltac:(lia) ltac:(lia));
      clear Hmono Hcross;
      (destruct (get nums lo <=? get nums mid) eqn:E1;
       [ apply Z.leb_le in E1;
         (destruct (target >=? get nums lo) eqn:E2;
          [apply Z.geb_le in E2 | rewrite Z.geb_leb in E2; apply Z.leb_gt in E2]);
         cbn [andb]; try lia;
         (destruct (target <? get nums mid) eqn:E3;
          [apply Z.ltb_lt in E3 | apply Z.ltb_ge in E3]); lia
       | apply Z.leb_gt in E1;
         (destruct (target >? get nums mid) eqn:E2;
          [apply Z.gtb_lt in E2 | rewrite Z.gtb_ltb in E2; apply Z.ltb_ge in E2]);
         cbn [andb]; try lia;
         (destruct (target <=? get nums hi) eqn:E3;
          [apply Z.leb_le in E3 | apply Z.leb_gt in E3]); lia ]). }
  clear Hup1 Hup2 Hcross.
  destruct (get nums lo <=? get nums mid);
    match goal with |- context [if ?c then _ else _] => destruct c end;
    eexists; (split; [reflexivity|]); cbn [fst snd];
    (split; [split; [lia | intros t Ht Heq; specialize (Hin t Ht Heq);
                           specialize (Hstep t Ht Heq); cbv beta in Hstep; lia]
            | lia]).
Qed.

End SearchLoop.

(** ** Vectors as lists *)

Lemma get_app_l a b i : 0 <= i < size a -> get (a ++ b) i = get a i.
Proof. unfold get, size. intros H. apply app_nth1. lia. Qed.

Lemma get_app_r a b i : size a <= i -> get (a ++ b) i = get b (i - size a).
Proof.
  unfold get, size. intros H. rewrite app_nth2 by lia.
  f_equal. lia.
Qed.

Lemma get_skipn k s i : 0 <= i -> get (skipn k s) i = get s (i + Z.of_nat k).
Proof.
  unfold get. intros H. rewrite nth_skipn. f_equal. lia.
Qed.

Lemma get_firstn k s i : 0 <= i < Z.of_nat k -> get (firstn k s) i = get s i.
Proof.
  unfold get. intros H. rewrite nth_firstn.
  replace (Z.to_nat i <? k)%nat with true
    by (symmetry; apply Nat.ltb_lt; lia).
  reflexivity.
Qed.

Lemma size_app a b : size (a ++ b) = size a + size b.
Proof. unfold size. rewrite length_app. lia. Qed.

Lemma get_cons_pos x v i : 0 < i -> get (x :: v) i = get v (i - 1).
Proof.
  unfold get. intros H.
  replace (Z.to_nat i) with (Datatypes.S (Z.to_nat (i - 1))) by lia.
  reflexivity.
Qed.

Lemma get_In v i : 0 <= i < size v -> In (get v i) v.
Proof. unfold get, size. intros H. apply nth_In. lia. Qed.

Lemma In_get v x : In x v -> exists i, 0 <= i < size v /\ get v i = x.
Proof.
  intros H. destruct (In_nth v x 0 H) as (n & Hn & Heq).
  exists (Z.of_nat n). unfold get, size. rewrite Nat2Z.id. split; [lia | exact Heq].
Qed.

Lemma get_nth_error v i :
  0 <= i < size v -> nth_error v (Z.to_nat i) = Some (get v i).
Proof.
  unfold get, size. intros H. apply nth_error_nth'. lia.
Qed.

Lemma increasing_get s :
  strictly_increasing s ->
  forall i j, 0 <= i -> i < j -> j < size s -> get s i < get s j.
Proof.
  unfold strictly_increasing.
  induction 1 as [|x s Hs IH Hx]; intros i j Hi Hij Hj.
  - cbn in Hj. lia.
  - assert (Hsz : size (x :: s) = size s + 1) by (unfold size; cbn [length]; lia).
    rewrite (get_cons_pos x s j) by lia.
    destruct (Z.eq_dec i 0) as [-> | Hne].
    + change (get (x :: s) 0) with x.
      rewrite Forall_forall in Hx. apply Hx, get_In. lia.
    + rewrite (get_cons_pos x s i) by lia. apply IH; lia.
Qed.

(** A rotated ascending vector has the two-run shape; the second run
    starts where the elements before the pivot were moved to. *)
Lemma rotate_two_runs k s :
  strictly_increasing s -> (k <= length s)%nat ->
  two_runs (rotate k s) (size s - Z.of_nat k).
Proof.
  intros Hs Hk. pose proof (increasing_get s Hs) as Hinc.
  assert (Hskip : size (skipn k s) = size s - Z.of_nat k)
    by (unfold size; rewrite length_skipn; lia).
  assert (Hfirst : size (firstn k s) = Z.of_nat k)
    by (unfold size; rewrite length_firstn; lia).
  assert (Hsz : size (rotate k s) = size s)
    by (unfold rotate; rewrite size_app; lia).
  assert (Hl : forall i, 0 <= i < size s - Z.of_nat k ->
                         get (rotate k s) i = get s (i + Z.of_nat k)).
  { intros i Hi. unfold rotate. rewrite get_app_l by lia. apply get_skipn. lia. }
  assert (Hr : forall i, size s - Z.of_nat k <= i < size s ->
                         get (rotate k s) i = get s (i - (size s - Z.of_nat k))).
  { intros i Hi. unfold rotate. rewrite get_app_r by lia.
    rewrite Hskip. apply get_firstn. lia. }
  unfold two_runs. rewrite Hsz.
  assert (0 <= size s - Z.of_nat k) by (unfold size; lia).
  repeat split; try lia.
  - intros i j Hi Hij Hj. rewrite !Hl by lia. apply Hinc; lia.
  - intros i j Hi Hij Hj. rewrite !Hr by lia. apply Hinc; lia.
  - intros i j Hi Hip Hpj Hj.
    rewrite (Hl i), (Hr j) by lia. apply Hinc; lia.
Qed.

Lemma rotate_size k s : size (rotate k s) = size s.
Proof.
  unfold rotate, size. rewrite length_app, length_skipn, length_firstn. lia.
Qed.

(** C1.  Let [s] be an ascending sequence of distinct integers, of a size
    an [int] can hold, and [nums] its rotation at a pivot [k] (any of
    [0 .. n-1]; [k = n] gives [s] back and covers the empty sequence).  For
    every target, [search] returns a valid position that holds the target
    when the target occurs in [nums], and [-1] when it does not. *)
Theorem search_rotated_correct (s : list Z) (k : nat) (target : Z) :
  strictly_increasing s -> (k <= length s)%nat -> fits_int s ->
  (In target (rotate k s) ->
     exists i, Rotated.search (rotate k s) target = Ret i /\
               0 <= i < size (rotate k s) /\
               nth_error (rotate k s) (Z.to_nat i) = Some target) /\
  (~ In target (rotate k s) -> Rotated.search (rotate k s) target = Ret (-1)).
Proof.
  intros Hs Hk Hfit.
  set (nums := rotate k s).
  assert (Hfit' : fits_int nums)
    by (unfold fits_int, nums; rewrite rotate_size; exact Hfit).
  assert (Hinit : to_int (to_size_t (size nums - 1)) = size nums - 1).
  { destruct nums eqn:E; [reflexivity|].
    rewrite <- E in *. apply last_position; [assumption | congruence]. }
  assert (Hrun :
    exists r, Rotated.search nums target = Ret r /\
      ((0 <= r < size nums /\ get nums r = target) \/
       (r = -1 /\ forall t, 0 <= t < size nums -> get nums t <> target))).
  { unfold Rotated.search. cbv zeta. rewrite Hinit.
    apply (search_loop_rotated nums target Hfit' _ (rotate_two_runs k s Hs Hk)).
    - unfold search_inv_rot, search_inv. cbn [fst snd].
      pose proof (size_nonneg nums).
      repeat split; try lia; intros t Ht _; lia.
    - unfold search_measure, Rotated.search_fuel, size. cbn [fst snd]. lia. }
  destruct Hrun as (r & Hr & Hpost). split.
  - intros Hin. destruct Hpost as [(Hb & Hg) | (_ & Habs)].
    + exists r. repeat split; try lia; [exact Hr|].
      rewrite get_nth_error by lia. now f_equal.
    + exfalso. destruct (In_get nums target Hin) as (i & Hi & Hgi).
      exact (Habs i Hi Hgi).
  - intros Hnot. destruct Hpost as [(Hb & Hg) | (-> & _)]; [|exact Hr].
    exfalso. apply Hnot. rewrite <- Hg. now apply get_In.
Qed.

Lemma search_rotated_correct_witness :
  (In 0 (rotate 4 [0; 1; 2; 4; 5; 6; 7]) ->
     exists i, Rotated.search (rotate 4 [0; 1; 2; 4; 5; 6; 7]) 0 = Ret i /\
               0 <= i < size (rotate 4 [0; 1; 2; 4; 5; 6; 7]) /\
               nth_error (rotate 4 [0; 1; 2; 4; 5; 6; 7]) (Z.to_nat i) = Some 0) /\
  (~ In 0 (rotate 4 [0; 1; 2; 4; 5; 6; 7]) ->
     Rotated.search (rotate 4 [0; 1; 2; 4; 5; 6; 7]) 0 = Ret (-1)).
Proof.
  apply (search_rotated_correct [0; 1; 2; 4; 5; 6; 7] 4 0).
  - unfold strictly_increasing.
    repeat (constructor; [|repeat (constructor; [lia|]); constructor]).
    constructor.
  - cbn. lia.
  - unfold fits_int, size, INT_MAX. cbn. lia.
Defined.

(** ** Mountain search *)

Lemma findPeakIndex_body_eq arr lo hi :
  fits_int arr -> 0 <= lo -> hi < size arr ->
  Mountain.findPeakIndex_body arr (lo, hi) =
    if lo <? hi then
      let mid := lo + (hi - lo) / 2 in
      if get arr mid <? get arr (mid + 1)
      then Ret (Continue (mid + 1, hi))
      else Ret (Continue (lo, mid))
    else Ret (Break lo).
Proof.
  intros Hv Hlo Hhi. unfold Mountain.findPeakIndex_body. cbn [fst snd].
  destruct (lo <? hi) eqn:Hlt; [|reflexivity].
  apply Z.ltb_lt in Hlt.
  rewrite (midpoint arr) by (assumption || lia).
  cbv zeta.
  pose proof (half_bounds lo hi ltac:(lia)) as Hmid.
  pose proof (half_lt lo hi Hlt) as Hmid'.
  set (mid := lo + (hi - lo) / 2) in *.
  assert (Hfit := Hv). unfold fits_int, INT_MAX in Hfit.
  rewrite !(to_int_id (mid + 1)) by (unfold INT_MIN, INT_MAX; lia).
  rewrite !at_int_get by (assumption || lia). cbn [bind].
  reflexivity.
Qed.

(** [findPeakIndex] returns a position of the vector, and on a mountain
    that position is the peak. *)
Lemma findPeakIndex_spec arr peak :
  fits_int arr -> arr <> [] ->
  exists r, Mountain.findPeakIndex arr = Ret r /\
            0 <= r < size arr /\ (mountain arr peak -> r = peak).
Proof.
  intros Hv Hne. unfold Mountain.findPeakIndex. cbv zeta.
  rewrite last_position by assumption.
  assert (0 < size arr) by (unfold size; destruct arr; [congruence | cbn; lia]).
  apply (while_loop_total _ (peak_inv arr peak) peak_measure).
  - intros [lo hi] (H0 & Hle & Hhi & Hpk). cbn [fst snd] in *.
    rewrite findPeakIndex_body_eq by assumption.
    destruct (lo <? hi) eqn:E; [apply Z.ltb_lt in E | apply Z.ltb_ge in E].
    2:{ left. eexists; split; [reflexivity|]. split; [lia|].
        intros Hm. specialize (Hpk Hm). lia. }
    right. cbv zeta.
    pose proof (half_bounds lo hi ltac:(lia)) as Hmid.
    pose proof (half_lt lo hi E) as Hmid'.
    set (mid := lo + (hi - lo) / 2) in *.
    unfold peak_inv, peak_measure.
    destruct (get arr mid <? get arr (mid + 1)) eqn:C;
      [apply Z.ltb_lt in C | apply Z.ltb_ge in C];
      eexists; (split; [reflexivity|]); cbn [fst snd];
      (split; [split; [lia | split; [lia | split; [lia|]]] | lia]);
      intros Hm; specialize (Hpk Hm); destruct Hm as (_ & Hup & Hdown).
    + (* arr[mid] < arr[mid+1]: the peak is right of mid *)
      destruct (Z_lt_le_dec mid peak) as [|Hge]; [lia|].
      pose proof (Hdown mid (mid + 1) Hge). lia.
    + (* otherwise the peak is mid or left of it *)
      destruct (Z_lt_le_dec mid peak) as [Hlt|]; [|lia].
      pose proof (Hup mid (mid + 1)). lia.
  - unfold peak_inv. cbn [fst snd].
    split; [lia | split; [lia | split; [lia|]]]. intros (? & _). lia.
  - unfold peak_measure, size. cbn [fst snd]. lia.
Qed.

Lemma lower_bound_body_eq arr value comp first len :
  0 <= first -> first + len <= size arr ->
  Mountain.lower_bound_body arr value comp (first, len) =
    if len >? 0 then
      let half := len / 2 in
      if comp (get arr (first + half)) value
      then Ret (Continue (first + half + 1, len - half - 1))
      else Ret (Continue (first, half))
    else Ret (Break first).
Proof.
  intros H0 Hlast. unfold Mountain.lower_bound_body. cbn [fst snd].
  destruct (len >? 0) eqn:E; [|reflexivity].
  rewrite Z.gtb_ltb in E. apply Z.ltb_lt in E.
  rewrite Z.shiftr_div_pow2 by lia. change (2 ^ 1) with 2.
  cbv zeta.
  assert (0 <= len / 2 < len)
    by (split; [apply Z.div_pos; lia | apply Z.div_lt_upper_bound; lia]).
  pose proof (size_nonneg arr).
  unfold iter at 1.
  replace ((0 <=? first + len / 2) && (first + len / 2 <=? size arr)) with true
    by (symmetry; apply andb_true_iff; split; apply Z.leb_le; lia).
  cbn [bind]. unfold deref. rewrite at_index_get by lia. cbn [bind].
  destruct (comp (get arr (first + len / 2)) value); [|reflexivity].
  unfold iter.
  replace ((0 <=? first + len / 2 + 1) && (first + len / 2 + 1 <=? size arr))
    with true by (symmetry; apply andb_true_iff; split; apply Z.leb_le; lia).
  reflexivity.
Qed.

(** [std::lower_bound] on positions [first .. last) of the vector returns a
    position of [first .. last]; on a partitioned range everything before
    it compares true and the element at it, if any, compares false. *)
Lemma lower_bound_spec arr value comp first last :
  0 <= first -> first <= last -> last <= size arr ->
  exists r, Mountain.lower_bound arr first last value comp = Ret r /\
            first <= r <= last /\
            (partitioned arr value comp first last ->
             (forall i, first <= i -> i < r -> comp (get arr i) value = true) /\
             (r < last -> comp (get arr r) value = false)).
Proof.
  intros H0 Hle Hlast. unfold Mountain.lower_bound. cbv zeta.
  apply (while_loop_total _ (lower_bound_inv arr value comp first last)
                          lower_bound_measure).
  - intros [f len] (Hf & Hlen & Hwin & Hpart). cbn [fst snd] in *.
    rewrite lower_bound_body_eq by lia.
    destruct (len >? 0) eqn:E;
      [rewrite Z.gtb_ltb in E; apply Z.ltb_lt in E
      |rewrite Z.gtb_ltb in E; apply Z.ltb_ge in E].
    2:{ left. eexists; split; [reflexivity|]. split; [lia|].
        intros Hp. destruct (Hpart Hp) as (Hbefore & Hafter).
        assert (len = 0) by lia. subst len. rewrite Z.add_0_r in Hafter.
        split; assumption. }
    right. cbv zeta.
    assert (Hhalf : 0 <= len / 2 < len)
      by (split; [apply Z.div_pos; lia | apply Z.div_lt_upper_bound; lia]).
    unfold lower_bound_inv, lower_bound_measure.
    destruct (comp (get arr (f + len / 2)) value) eqn:C;
      eexists; (split; [reflexivity|]); cbn [fst snd];
      (split; [split; [lia | split; [lia | split; [lia|]]] | lia]);
      intros Hp; destruct (Hpart Hp) as (Hbefore & Hafter); split.
    + intros i Hi1 Hi2. apply (Hp i (f + len / 2)); try lia. exact C.
    + intros Hlt.
      replace (f + len / 2 + 1 + (len - len / 2 - 1)) with (f + len) by lia.
      apply Hafter. lia.
    + exact Hbefore.
    + intros _. exact C.
  - unfold lower_bound_inv. cbn [fst snd].
    split; [lia | split; [lia | split; [lia|]]].
    intros _. split; [intros i ? ?; lia | intros ?; lia].
  - unfold lower_bound_measure. cbn [fst snd]. lia.
Qed.

Lemma iter_ok arr i : 0 <= i <= size arr -> iter arr i = Ret i.
Proof.
  intros H. unfold iter.
  replace ((0 <=? i) && (i <=? size arr)) with true
    by (symmetry; apply andb_true_iff; split; apply Z.leb_le; lia).
  reflexivity.
Qed.

(** Both wrappers return the position [j] that [std::lower_bound] found
    when it is inside the range and holds the target, and [-1]
    otherwise. *)
Lemma binarySearchWith_spec comp arr target lo hi :
  fits_int arr -> 0 <= lo -> 0 <= hi -> lo <= hi + 1 -> hi < size arr ->
  exists r j,
    Mountain.binarySearchWith comp arr target lo hi = Ret r /\
    lo <= j <= hi + 1 /\
    (partitioned arr target comp lo (hi + 1) ->
     (forall i, lo <= i -> i < j -> comp (get arr i) target = true) /\
     (j <= hi -> comp (get arr j) target = false)) /\
    ((j <= hi /\ get arr j = target /\ r = j) \/
     ((j = hi + 1 \/ get arr j <> target) /\ r = -1)).
Proof.
  intros Hv H0 Hhi0 Hle Hhi. unfold Mountain.binarySearchWith.
  rewrite (iter_ok arr lo) by lia. cbn [bind].
  rewrite (iter_ok arr hi) by lia. cbn [bind].
  rewrite (iter_ok arr (hi + 1)) by lia. cbn [bind].
  destruct (lower_bound_spec arr target comp lo (hi + 1))
    as (j & -> & Hj & Hpart); try lia.
  cbn [bind]. exists (if (j <? hi + 1) && (get arr j =? target) then j else -1), j.
  assert (Hfit := Hv). unfold fits_int, INT_MAX in Hfit.
  split; [|split; [lia | split]].
  - destruct (j =? hi + 1) eqn:E; [apply Z.eqb_eq in E | apply Z.eqb_neq in E];
      cbn [negb].
    + replace (j <? hi + 1) with false by (symmetry; apply Z.ltb_ge; lia).
      reflexivity.
    + replace (j <? hi + 1) with true by (symmetry; apply Z.ltb_lt; lia).
      unfold deref. rewrite at_index_get by lia. cbn [bind andb].
      destruct (get arr j =? target); [|reflexivity].
      rewrite to_int_id by (unfold INT_MIN, INT_MAX; lia). reflexivity.
  - intros Hp. destruct (Hpart Hp) as (Hb & Ha). split; [exact Hb|].
    intros ?. apply Ha. lia.
  - destruct (j <? hi + 1) eqn:E; [apply Z.ltb_lt in E | apply Z.ltb_ge in E];
      cbn [andb].
    + destruct (get arr j =? target) eqn:C;
        [apply Z.eqb_eq in C | apply Z.eqb_neq in C].
      * left. repeat split; [lia | exact C].
      * right. split; [right; exact C | reflexivity].
    + right. split; [left; lia | reflexivity].
Qed.

(** On any range a wrapper returns [-1] or a position of the range that
    holds the target. *)
Lemma binarySearchWith_total comp arr target lo hi :
  fits_int arr -> 0 <= lo -> 0 <= hi -> lo <= hi + 1 -> hi < size arr ->
  exists r, Mountain.binarySearchWith comp arr target lo hi = Ret r /\
            (r = -1 \/ (lo <= r <= hi /\ get arr r = target)).
Proof.
  intros Hv H0 Hhi0 Hle Hhi.
  destruct (binarySearchWith_spec comp arr target lo hi)
    as (r & j & Hr & Hj & _ & [(? & ? & ?) | (_ & ?)]); try assumption;
    exists r; (split; [exact Hr|]); [right | left]; subst; lia.
Qed.

(** On a strictly ascending range [binarySearchAscending] misses no
    occurrence. *)
Lemma binarySearchAscending_sorted arr target lo hi :
  fits_int arr -> 0 <= lo -> 0 <= hi -> lo <= hi + 1 -> hi < size arr ->
  (forall i j, lo <= i -> i < j -> j <= hi -> get arr i < get arr j) ->
  exists r, Mountain.binarySearchAscending arr target lo hi = Ret r /\
            ((lo <= r <= hi /\ get arr r = target) \/
             (r = -1 /\ forall t, lo <= t <= hi -> get arr t <> target)).
Proof.
  intros Hv H0 Hhi0 Hle Hhi Hsorted. unfold Mountain.binarySearchAscending.
  destruct (binarySearchWith_spec Z.ltb arr target lo hi)
    as (r & j & Hr & Hj & Hpart & Hres); try assumption.
  exists r. split; [exact Hr|].
  destruct Hres as [(? & ? & ->) | (Hmiss & ->)]; [left; lia|].
  right. split; [reflexivity|]. intros t Ht Heq.
  destruct Hpart as (Hbefore & Hat).
  { intros a b Ha Hab Hb Hc. apply Z.ltb_lt in Hc. apply Z.ltb_lt.
    destruct (Z.eq_dec a b) as [->|]; [exact Hc|].
    pose proof (Hsorted a b). lia. }
  destruct (Z_lt_le_dec t j) as [Hlt | Hge].
  - specialize (Hbefore t ltac:(lia) Hlt). apply Z.ltb_lt in Hbefore. lia.
  - assert (Hjhi : j <= hi) by lia.
    specialize (Hat Hjhi). apply Z.ltb_ge in Hat.
    destruct Hmiss as [? | Hne]; [lia|].
    destruct (Z.eq_dec t j) as [-> | ?]; [congruence|].
    pose proof (Hsorted j t). lia.
Qed.

(** On a strictly descending range [binarySearchDescending] misses no
    occurrence. *)
Lemma binarySearchDescending_sorted arr target lo hi :
  fits_int arr -> 0 <= lo -> 0 <= hi -> lo <= hi + 1 -> hi < size arr ->
  (forall i j, lo <= i -> i < j -> j <= hi -> get arr j < get arr i) ->
  exists r, Mountain.binarySearchDescending arr target lo hi = Ret r /\
            ((lo <= r <= hi /\ get arr r = target) \/
             (r = -1 /\ forall t, lo <= t <= hi -> get arr t <> target)).
Proof.
  intros Hv H0 Hhi0 Hle Hhi Hsorted. unfold Mountain.binarySearchDescending.
  destruct (binarySearchWith_spec Z.gtb arr target lo hi)
    as (r & j & Hr & Hj & Hpart & Hres); try assumption.
  exists r. split; [exact Hr|].
  destruct Hres as [(? & ? & ->) | (Hmiss & ->)]; [left; lia|].
  right. split; [reflexivity|]. intros t Ht Heq.
  destruct Hpart as (Hbefore & Hat).
  { intros a b Ha Hab Hb Hc. apply Z.gtb_lt in Hc. apply Z.gtb_lt.
    destruct (Z.eq_dec a b) as [->|]; [exact Hc|].
    pose proof (Hsorted a b). lia. }
  destruct (Z_lt_le_dec t j) as [Hlt | Hge].
  - specialize (Hbefore t ltac:(lia) Hlt). apply Z.gtb_lt in Hbefore. lia.
  - assert (Hjhi : j <= hi) by lia.
    specialize (Hat Hjhi). rewrite Z.gtb_ltb in Hat. apply Z.ltb_ge in Hat.
    destruct Hmiss as [? | Hne]; [lia|].
    destruct (Z.eq_dec t j) as [-> | ?]; [congruence|].
    pose proof (Hsorted j t). lia.
Qed.

(** The three calls of [findTargetInMountainArray] on a non-empty vector
    all return, whatever the vector holds. *)
Lemma mountain_calls_total arr target :
  fits_int arr -> arr <> [] ->
  exists p a d,
    Mountain.findPeakIndex arr = Ret p /\ 0 <= p < size arr /\
    Mountain.binarySearchAscending arr target 0 p = Ret a /\
    (a = -1 \/ (0 <= a <= p /\ get arr a = target)) /\
    Mountain.binarySearchDescending arr target (to_int (p + 1))
      (to_int (to_size_t (size arr - 1))) = Ret d /\
    (d = -1 \/ (p + 1 <= d <= size arr - 1 /\ get arr d = target)).
Proof.
  intros Hv Hne.
  destruct (findPeakIndex_spec arr 0 Hv Hne) as (p & Hp & Hpb & _).
  assert (Hfit := Hv). unfold fits_int, INT_MAX in Hfit.
  destruct (binarySearchWith_total Z.ltb arr target 0 p) as (a & Ha & Hab);
    try (assumption || lia).
  destruct (binarySearchWith_total Z.gtb arr target (p + 1) (size arr - 1))
    as (d & Hd & Hdb); try (assumption || lia).
  exists p, a, d.
  rewrite last_position by assumption.
  rewrite (to_int_id (p + 1)) by (unfold INT_MIN, INT_MAX; lia).
  split; [exact Hp | split; [exact Hpb | split; [exact Ha |
  split; [exact Hab | split; [exact Hd | exact Hdb]]]]].
Qed.

Lemma findTarget_unfold arr target :
  arr <> [] ->
  Mountain.findTargetInMountainArray arr target =
    (peakIndex <- Mountain.findPeakIndex arr ;;
     result <- Mountain.binarySearchAscending arr target 0 peakIndex ;;
     if negb (result =? -1) then Ret result
     else Mountain.binarySearchDescending arr target (to_int (peakIndex + 1))
            (to_int (to_size_t (size arr - 1)))).
Proof. destruct arr; [congruence | reflexivity]. Qed.

(** On any vector the search returns [-1] or a position that holds the
    target. *)
Lemma findTarget_total arr target :
  fits_int arr ->
  exists r, Mountain.findTargetInMountainArray arr target = Ret r /\
            (r = -1 \/ (0 <= r < size arr /\ get arr r = target)).
Proof.
  intros Hv.
  destruct arr as [|x arr'];
    [exists (-1); split; [reflexivity | left; reflexivity]|].
  assert (Hne : x :: arr' <> []) by discriminate.
  set (arr := x :: arr') in *.
  rewrite findTarget_unfold by assumption.
  destruct (mountain_calls_total arr target Hv Hne)
    as (p & a & d & Hp & Hpb & Ha & Hab & Hd & Hdb).
  rewrite Hp. cbn [bind]. rewrite Ha. cbn [bind].
  destruct (a =? -1) eqn:Ea; [apply Z.eqb_eq in Ea | apply Z.eqb_neq in Ea];
    cbn [negb].
  - exists d. split; [exact Hd|]. lia.
  - exists a. split; [reflexivity|]. lia.
Qed.

(** On a mountain: an occurrence on the ascending side wins; failing that,
    the occurrence on the descending side; failing both, [-1]. *)
Lemma findTarget_mountain arr peak target :
  fits_int arr -> mountain arr peak ->
  exists r, Mountain.findTargetInMountainArray arr target = Ret r /\
    ((0 <= r <= peak /\ get arr r = target) \/
     ((forall t, 0 <= t <= peak -> get arr t <> target) /\
      peak < r < size arr /\ get arr r = target) \/
     (r = -1 /\ forall t, 0 <= t < size arr -> get arr t <> target)).
Proof.
  intros Hv Hm.
  assert (Hne : arr <> []).
  { destruct Hm as (Hp & _). intros ->. cbn in Hp. lia. }
  rewrite findTarget_unfold by assumption.
  destruct (findPeakIndex_spec arr peak Hv Hne) as (p & -> & Hpb & Hpk).
  specialize (Hpk Hm). subst p. cbn [bind].
  assert (Hfit := Hv). unfold fits_int, INT_MAX in Hfit.
  destruct Hm as (_ & Hup & Hdown).
  destruct (binarySearchAscending_sorted arr target 0 peak)
    as (a & -> & Ha); try (assumption || lia).
  cbn [bind].
  destruct Ha as [(Hab & Hag) | (-> & Hamiss)].
  - replace (a =? -1) with false by (symmetry; apply Z.eqb_neq; lia).
    cbn [negb]. exists a. split; [reflexivity|]. left. lia.
  - change (-1 =? -1) with true. cbn [negb].
    rewrite last_position by assumption.
    rewrite (to_int_id (peak + 1)) by (unfold INT_MIN, INT_MAX; lia).
    destruct (binarySearchDescending_sorted arr target (peak + 1) (size arr - 1))
      as (d & -> & Hd); try (assumption || lia).
    { intros i j ? ? ?. apply Hdown; lia. }
    exists d. split; [reflexivity|].
    destruct Hd as [(Hdb & Hdg) | (-> & Hdmiss)].
    + right; left. split; [exact Hamiss | lia].
    + right; right. split; [reflexivity|]. intros t Ht.
      destruct (Z_le_gt_dec t peak); [apply Hamiss | apply Hdmiss]; lia.
Qed.

(** C2.  On a mountain array (strictly up to the peak, strictly down from
    it) whose size an [int] can hold, [findTargetInMountainArray] returns a
    valid position that holds the target when the target occurs on the
    ascending or on the descending side, and [-1] when it occurs on
    neither. *)
Theorem findTarget_mountain_correct (arr : vec) (peak target : Z) :
  mountain arr peak -> fits_int arr ->
  (In target arr ->
     exists i, Mountain.findTargetInMountainArray arr target = Ret i /\
               0 <= i < size arr /\
               nth_error arr (Z.to_nat i) = Some target) /\
  (~ In target arr ->
     Mountain.findTargetInMountainArray arr target = Ret (-1)).
Proof.
  intros Hm Hv.
  destruct (findTarget_mountain arr peak target Hv Hm) as (r & Hr & Hpost).
  assert (Hp : 0 <= peak < size arr) by apply Hm.
  split.
  - intros Hin.
    destruct Hpost as [(Hb & Hg) | [(_ & Hb & Hg) | (_ & Hmiss)]].
    + exists r. repeat split; try lia; [exact Hr|].
      rewrite get_nth_error by lia. now f_equal.
    + exists r. repeat split; try lia; [exact Hr|].
      rewrite get_nth_error by lia. now f_equal.
    + exfalso. destruct (In_get arr target Hin) as (i & Hi & Hgi).
      exact (Hmiss i Hi Hgi).
  - intros Hnot.
    destruct Hpost as [(Hb & Hg) | [(_ & Hb & Hg) | (-> & _)]];
      [exfalso | exfalso | exact Hr];
      apply Hnot; rewrite <- Hg; apply get_In; lia.
Qed.

(** C7.  On a mountain array whose size an [int] can hold, a target that
    occurs at position [i] of the ascending prefix [0 .. peak] and also at
    position [j] of the descending suffix [peak+1 .. end] is reported at
    [i]. *)
Theorem findTarget_prefers_ascending (arr : vec) (peak target i j : Z) :
  mountain arr peak -> fits_int arr ->
  0 <= i <= peak -> get arr i = target ->
  peak < j < size arr -> get arr j = target ->
  Mountain.findTargetInMountainArray arr target = Ret i.
Proof.
  intros Hm Hv Hi Hgi Hj Hgj.
  destruct (findTarget_mountain arr peak target Hv Hm) as (r & Hr & Hpost).
  destruct Hpost as [(Hb & Hg) | [(Hmiss & _) | (_ & Hmiss)]].
  - destruct Hm as (_ & Hup & _).
    destruct (Z.lt_trichotomy r i) as [Hlt | [-> | Hgt]]; [|exact Hr|].
    + pose proof (Hup r i). lia.
    + pose proof (Hup i r). lia.
  - exfalso. exact (Hmiss i Hi Hgi).
  - exfalso. apply (Hmiss i); [lia | exact Hgi].
Qed.

(** ** Mountains from lists *)

Lemma decreasing_get s :
  strictly_decreasing s ->
  forall i j, 0 <= i -> i < j -> j < size s -> get s j < get s i.
Proof.
  unfold strictly_decreasing.
  induction 1 as [|x s Hs IH Hx]; intros i j Hi Hij Hj.
  - cbn in Hj. lia.
  - assert (Hsz : size (x :: s) = size s + 1) by (unfold size; cbn [length]; lia).
    rewrite (get_cons_pos x s j) by lia.
    destruct (Z.eq_dec i 0) as [-> | Hne].
    + change (get (x :: s) 0) with x.
      rewrite Forall_forall in Hx.
      apply Z.gt_lt, Hx, get_In. lia.
    + rewrite (get_cons_pos x s i) by lia. apply IH; lia.
Qed.

(** An ascending run ending in [pk] followed by a descending run starting
    at [pk] is a mountain whose peak is the position of [pk]. *)
Lemma mountain_intro up pk down :
  strictly_increasing (up ++ [pk]) -> strictly_decreasing (pk :: down) ->
  mountain (up ++ pk :: down) (size up).
Proof.
  intros Hup Hdown.
  pose proof (increasing_get _ Hup) as Hinc.
  pose proof (decreasing_get _ Hdown) as Hdec.
  assert (Hs1 : size (up ++ [pk]) = size up + 1)
    by (rewrite size_app; reflexivity).
  assert (Hs2 : size (pk :: down) = size down + 1)
    by (unfold size; cbn [length]; lia).
  assert (Hs : size (up ++ pk :: down) = size up + size down + 1)
    by (rewrite size_app, Hs2; lia).
  pose proof (size_nonneg up). pose proof (size_nonneg down).
  unfold mountain. rewrite Hs. split; [lia | split].
  - intros i j Hi Hij Hj.
    replace (up ++ pk :: down) with ((up ++ [pk]) ++ down)
      by (rewrite <- app_assoc; reflexivity).
    rewrite (get_app_l (up ++ [pk]) down i), (get_app_l (up ++ [pk]) down j)
      by lia.
    apply Hinc; lia.
  - intros i j Hi Hij Hj.
    rewrite !get_app_r by lia. apply Hdec; lia.
Qed.

(** A strictly ascending vector is a mountain with its peak at the last
    position. *)
Lemma ascending_mountain arr :
  arr <> [] -> strictly_increasing arr -> mountain arr (size arr - 1).
Proof.
  intros Hne Hs.
  assert (0 < size arr) by (unfold size; destruct arr; [congruence | cbn; lia]).
  unfold mountain. split; [lia | split].
  - intros i j Hi Hij Hj. apply increasing_get; (assumption || lia).
  - intros i j Hi Hij Hj. lia.
Qed.

(** A strictly descending vector is a mountain with its peak at position
    0. *)
Lemma descending_mountain arr :
  arr <> [] -> strictly_decreasing arr -> mountain arr 0.
Proof.
  intros Hne Hs.
  assert (0 < size arr) by (unfold size; destruct arr; [congruence | cbn; lia]).
  unfold mountain. split; [lia | split].
  - intros i j Hi Hij Hj. lia.
  - intros i j Hi Hij Hj. apply decreasing_get; (assumption || lia).
Qed.

Lemma findTarget_mountain_correct_witness :
  (In 4 [1; 3; 5; 8; 7; 4; 2] ->
     exists i, Mountain.findTargetInMountainArray [1; 3; 5; 8; 7; 4; 2] 4 = Ret i /\
               0 <= i < size [1; 3; 5; 8; 7; 4; 2] /\
               nth_error [1; 3; 5; 8; 7; 4; 2] (Z.to_nat i) = Some 4) /\
  (~ In 4 [1; 3; 5; 8; 7; 4; 2] ->
     Mountain.findTargetInMountainArray [1; 3; 5; 8; 7; 4; 2] 4 = Ret (-1)).
Proof.
  apply (findTarget_mountain_correct [1; 3; 5; 8; 7; 4; 2] 3 4).
  - apply (mountain_intro [1; 3; 5] 8 [7; 4; 2]).
    + unfold strictly_increasing. repeat constructor.
    + unfold strictly_decreasing. repeat constructor.
  - unfold fits_int, size, INT_MAX. cbn. lia.
Defined.

Lemma findTarget_prefers_ascending_witness :
  Mountain.findTargetInMountainArray [1; 2; 5; 2; 0] 2 = Ret 1.
Proof.
  apply (findTarget_prefers_ascending [1; 2; 5; 2; 0] 2 2 1 3).
  - apply (mountain_intro [1; 2] 5 [2; 0]).
    + unfold strictly_increasing. repeat constructor.
    + unfold strictly_decreasing. repeat constructor.
  - unfold fits_int, size, INT_MAX. cbn. lia.
  - lia.
  - reflexivity.
  - unfold size. cbn. lia.
  - reflexivity.
Defined.

(** C9.  On a non-empty strictly ascending vector (peak at the last
    position) and on a non-empty strictly descending one (peak at position
    0), of a size an [int] can hold, [findPeakIndex], the ascending
    half-search, the descending half-search and the whole of
    [findTargetInMountainArray] end in [Ret]; an access outside the vector
    or an iterator outside [begin() .. end()] would have ended in
    [Fault]. *)
Theorem degenerate_mountains_in_bounds (arr : vec) (target : Z) :
  fits_int arr -> arr <> [] ->
  strictly_increasing arr \/ strictly_decreasing arr ->
  exists p a d r,
    Mountain.findPeakIndex arr = Ret p /\
    (strictly_increasing arr -> p = size arr - 1) /\
    (strictly_decreasing arr -> p = 0) /\
    Mountain.binarySearchAscending arr target 0 p = Ret a /\
    Mountain.binarySearchDescending arr target (to_int (p + 1))
      (to_int (to_size_t (size arr - 1))) = Ret d /\
    Mountain.findTargetInMountainArray arr target = Ret r.
Proof.
  intros Hv Hne Hshape.
  destruct (mountain_calls_total arr target Hv Hne)
    as (p & a & d & Hp & Hpb & Ha & _ & Hd & _).
  destruct (findTarget_total arr target Hv) as (r & Hr & _).
  exists p, a, d, r.
  split; [exact Hp | split; [|split; [|split; [exact Ha | split; [exact Hd | exact Hr]]]]].
  - intros Hs.
    destruct (findPeakIndex_spec arr (size arr - 1) Hv Hne) as (p' & Hp' & _ & Hpk).
    rewrite Hp in Hp'. injection Hp' as <-.
    apply Hpk, ascending_mountain; assumption.
  - intros Hs.
    destruct (findPeakIndex_spec arr 0 Hv Hne) as (p' & Hp' & _ & Hpk).
    rewrite Hp in Hp'. injection Hp' as <-.
    apply Hpk, descending_mountain; assumption.
Qed.

Lemma degenerate_mountains_in_bounds_witness :
  exists p a d r,
    Mountain.findPeakIndex [1; 2; 3; 4; 5] = Ret p /\
    (strictly_increasing [1; 2; 3; 4; 5] -> p = size [1; 2; 3; 4; 5] - 1) /\
    (strictly_decreasing [1; 2; 3; 4; 5] -> p = 0) /\
    Mountain.binarySearchAscending [1; 2; 3; 4; 5] 7 0 p = Ret a /\
    Mountain.binarySearchDescending [1; 2; 3; 4; 5] 7 (to_int (p + 1))
      (to_int (to_size_t (size [1; 2; 3; 4; 5] - 1))) = Ret d /\
    Mountain.findTargetInMountainArray [1; 2; 3; 4; 5] 7 = Ret r.
Proof.
  apply (degenerate_mountains_in_bounds [1; 2; 3; 4; 5] 7).
  - unfold fits_int, size, INT_MAX. cbn. lia.
  - discriminate.
  - left. unfold strictly_increasing. repeat constructor.
Defined.

(** C6.  On the empty vector [search] and [findTargetInMountainArray]
    return [-1] and [sortedArrayToBST] returns the empty tree; none of the
    three faults. *)
Theorem empty_input (target : Z) :
  Rotated.search [] target = Ret (-1) /\
  Mountain.findTargetInMountainArray [] target = Ret (-1) /\
  BST.sortedArrayToBST [] = Ret Leaf.
Proof. repeat split. Qed.

(** ** The validator *)

Lemma push_left_pending curr stack :
  pending Leaf (BST.push_left curr stack) = pending curr stack.
Proof.
  revert stack. induction curr as [|l IHl v r _]; intros stack; [reflexivity|].
  cbn [BST.push_left]. rewrite IHl. unfold pending.
  cbn [inorder flat_map pending_node]. now rewrite <- app_assoc.
Qed.

Lemma push_left_non_null curr stack :
  Forall non_null stack -> Forall non_null (BST.push_left curr stack).
Proof.
  revert stack. induction curr as [|l IHl v r _]; intros stack H; [exact H|].
  cbn [BST.push_left]. apply IHl. constructor; [discriminate | exact H].
Qed.

(** One iteration of the outer loop: it leaves with the verdict, or it
    visits one value and goes on with one value fewer to visit. *)
Lemma isValidBST_body_ok b s :
  valid_inv b s ->
  (exists r, BST.isValidBST_body s = Ret (Break r) /\ r = b) \/
  (exists s', BST.isValidBST_body s = Ret (Continue s') /\ valid_inv b s' /\
              (valid_measure s' < valid_measure s)%nat).
Proof.
  destruct s as [[curr stack] prev]. intros (Hnn & Hb).
  unfold BST.isValidBST_body.
  destruct (negb (BST.is_null curr) || negb (Nat.eqb (length stack) 0)) eqn:C.
  2:{ left. exists true. split; [reflexivity|].
      apply orb_false_iff in C. destruct C as (C1 & C2).
      destruct curr; [|discriminate]. destruct stack; [|discriminate].
      cbn in Hb. exact Hb. }
  pose proof (push_left_pending curr stack) as Hpend.
  pose proof (push_left_non_null curr stack Hnn) as Hnn'.
  destruct (BST.push_left curr stack) as [|n st] eqn:P.
  { exfalso. destruct curr; cbn in P.
    - subst stack. discriminate.
    - assert (Hlen : length (pending Leaf []) = length (pending (Node curr1 v curr2) stack))
        by (rewrite Hpend; reflexivity).
      unfold pending in Hlen. cbn [inorder flat_map app] in Hlen.
      rewrite !length_app in Hlen. cbn [length] in Hlen. lia. }
  apply Forall_cons_iff in Hnn'. destruct Hnn' as (Hn & Hst).
  destruct n as [|nl nv nr]; [exfalso; now apply Hn|].
  unfold pending in Hpend. cbn [inorder flat_map pending_node app] in Hpend.
  assert (Hrest : pending curr stack = nv :: pending nr st).
  { unfold pending. symmetry. exact Hpend. }
  rewrite Hrest in Hb. cbn [ascending_after] in Hb.
  cbn [BST.val BST.right bind].
  destruct prev as [|pl pv pr];
    cbn [BST.is_null negb prev_val bind BST.val BST.right] in *.
  - right. eexists. split; [reflexivity|]. split.
    + split; [exact Hst | exact Hb].
    + cbn [valid_measure]. rewrite Hrest. cbn [length]. lia.
  - destruct (nv <=? pv) eqn:Cmp; cbn [bind].
    + left. exists false. split; [reflexivity | exact Hb].
    + right. eexists. split; [reflexivity|]. split.
      * split; [exact Hst | exact Hb].
      * cbn [valid_measure]. rewrite Hrest. cbn [length]. lia.
Qed.

(** [isValidBST] returns, and its verdict is the ascending check of the
    in-order sequence. *)
Lemma isValidBST_spec root :
  BST.isValidBST root = Ret (ascending_after None (inorder root)).
Proof.
  unfold BST.isValidBST.
  destruct (while_loop_total BST.isValidBST_body
              (valid_inv (ascending_after None (inorder root)))
              valid_measure
              (fun r => r = ascending_after None (inorder root))
              (isValidBST_body_ok _)
              (Datatypes.S (nodes root)) (root, [], Leaf))
    as (r & Hr & ->).
  - split; [constructor|]. unfold pending. cbn. now rewrite app_nil_r.
  - cbn [valid_measure]. unfold pending. cbn [flat_map]. rewrite app_nil_r.
    assert (length (inorder root) = nodes root).
    { induction root as [|l IHl v r IHr]; [reflexivity|].
      cbn. rewrite length_app. cbn. lia. }
    lia.
  - exact Hr.
Qed.

Lemma ascending_after_sorted l :
  forall last,
    ascending_after last l = true <->
    Sorted Z.lt l /\ match last with
                     | None => True
                     | Some p => HdRel Z.lt p l
                     end.
Proof.
  induction l as [|x l IH]; intros last.
  - cbn. split; [intros _|reflexivity].
    split; [constructor | destruct last; constructor].
  - cbn [ascending_after]. destruct last as [p|].
    + destruct (x <=? p) eqn:C; [apply Z.leb_le in C | apply Z.leb_gt in C].
      * split; [discriminate|]. intros (_ & Hhd). inversion Hhd; lia.
      * rewrite IH. split.
        -- intros (Hs & Hhd). split; constructor; assumption.
        -- intros (Hs & _). inversion Hs; subst. split; assumption.
    + rewrite IH. split.
      * intros (Hs & Hhd). split; [constructor; assumption | exact I].
      * intros (Hs & _). inversion Hs; subst. split; assumption.
Qed.

Lemma ascending_after_increasing l :
  ascending_after None l = true <-> strictly_increasing l.
Proof.
  rewrite ascending_after_sorted. unfold strictly_increasing.
  split.
  - intros (Hs & _). apply Sorted_StronglySorted; [|exact Hs].
    intros a b c. apply Z.lt_trans.
  - intros Hs. split; [apply StronglySorted_Sorted; exact Hs | exact I].
Qed.

(** C3.  [isValidBST] returns a verdict on every binary tree; the verdict
    is [true] exactly when the in-order value sequence of the tree is
    strictly increasing, and it is [true] for the empty tree. *)
Theorem isValidBST_correct :
  (forall root : tree,
     exists b, BST.isValidBST root = Ret b /\
               (b = true <-> strictly_increasing (inorder root))) /\
  BST.isValidBST Leaf = Ret true.
Proof.
  split; [|reflexivity].
  intros root. exists (ascending_after None (inorder root)).
  split; [apply isValidBST_spec | apply ascending_after_increasing].
Qed.

(** ** Strict ordering of trees *)

Lemma increasing_app l1 l2 :
  strictly_increasing (l1 ++ l2) <->
  strictly_increasing l1 /\ strictly_increasing l2 /\
  (forall x y, In x l1 -> In y l2 -> x < y).
Proof.
  unfold strictly_increasing. induction l1 as [|a l1 IH]; cbn [app].
  - split.
    + intros H. split; [constructor | split; [exact H | intros x y []]].
    + intros (_ & H & _). exact H.
  - split.
    + intros H. apply StronglySorted_inv in H. destruct H as (Hs & Ha).
      apply IH in Hs. destruct Hs as (H1 & H2 & H12).
      apply Forall_app in Ha. destruct Ha as (Ha1 & Ha2).
      split; [constructor; assumption | split; [exact H2|]].
      intros x y [<- | Hx] Hy.
      * rewrite Forall_forall in Ha2. now apply Ha2.
      * now apply H12.
    + intros (H1 & H2 & H12).
      apply StronglySorted_inv in H1. destruct H1 as (H1 & Ha1).
      constructor.
      * apply IH. split; [exact H1 | split; [exact H2|]].
        intros x y Hx Hy. apply H12; [right; exact Hx | exact Hy].
      * apply Forall_app. split; [exact Ha1|].
        apply Forall_forall. intros y Hy. apply H12; [left; reflexivity | exact Hy].
Qed.

(** The two readings of the ordering invariant agree: bounds inherited
    from the ancestors, and a strictly increasing in-order sequence. *)
Lemma bst_between_inorder t :
  forall lo hi,
    bst_between lo hi t <->
    strictly_increasing (inorder t) /\
    Forall (fun x => above lo x /\ below x hi) (inorder t).
Proof.
  induction t as [|l IHl v r IHr]; intros lo hi; cbn [bst_between inorder].
  - split; [intros _; split; constructor | intros _; exact I].
  - rewrite IHl, IHr, increasing_app, Forall_app.
    split.
    + intros (Hlo & Hhi & (Hsl & Hfl) & (Hsr & Hfr)).
      rewrite Forall_forall in Hfl, Hfr.
      assert (Hr : Forall (Z.lt v) (inorder r)).
      { apply Forall_forall. intros y Hy. exact (proj1 (Hfr y Hy)). }
      split; [split; [exact Hsl | split]|split].
      * constructor; assumption.
      * intros x y Hx [<- | Hy].
        -- exact (proj2 (Hfl x Hx)).
        -- apply Z.lt_trans with v; [exact (proj2 (Hfl x Hx))|].
           exact (proj1 (Hfr y Hy)).
      * apply Forall_forall. intros x Hx. split; [exact (proj1 (Hfl x Hx))|].
        destruct hi as [b|]; [|exact I]. cbn in *.
        apply Z.lt_trans with v; [exact (proj2 (Hfl x Hx)) | exact Hhi].
      * constructor; [split; assumption|].
        apply Forall_forall. intros y Hy. split; [|exact (proj2 (Hfr y Hy))].
        destruct lo as [a|]; [|exact I]. cbn in *.
        apply Z.lt_trans with v; [exact Hlo | exact (proj1 (Hfr y Hy))].
    + intros ((Hsl & Hsr & Hcross) & (Hfl & Hfr)).
      apply StronglySorted_inv in Hsr. destruct Hsr as (Hsr & Hvr).
      apply Forall_cons_iff in Hfr. destruct Hfr as ((Hlo & Hhi) & Hfr).
      rewrite Forall_forall in Hfl, Hfr, Hvr.
      split; [exact Hlo | split; [exact Hhi | split; split]];
        try assumption; apply Forall_forall.
      * intros x Hx. split; [exact (proj1 (Hfl x Hx))|].
        cbn. apply Hcross; [exact Hx | left; reflexivity].
      * intros y Hy. split; [cbn; now apply Hvr | exact (proj2 (Hfr y Hy))].
Qed.

Lemma is_bst_inorder t : is_bst t <-> strictly_increasing (inorder t).
Proof.
  unfold is_bst. rewrite bst_between_inorder. split; [intros (H & _); exact H|].
  intros H. split; [exact H|]. apply Forall_forall. intros x _. split; exact I.
Qed.

(** Bounds may be loosened. *)
Lemma bst_between_weaken t :
  forall lo hi, bst_between lo hi t -> bst_between None None t.
Proof.
  intros lo hi H. apply bst_between_inorder in H. destruct H as (H & _).
  now apply is_bst_inorder.
Qed.

(** A tree whose values all lie inside [(a, b)] also respects [a] and [b]
    as outermost bounds. *)
Lemma bst_between_clamp a b t :
  forall lo hi,
    bst_between lo hi t ->
    Forall (fun x => a < x < b) (preorder t) ->
    bst_between (Some (match lo with Some l => l | None => a end))
                (Some (match hi with Some h => h | None => b end)) t.
Proof.
  induction t as [|l IHl v r IHr]; intros lo hi; cbn [bst_between preorder];
    [intros; exact I|].
  intros (Hlo & Hhi & Hl & Hr) Hall.
  apply Forall_cons_iff in Hall. destruct Hall as (Hv & Hall).
  apply Forall_app in Hall. destruct Hall as (Hal & Har).
  split; [|split; [|split]].
  - destruct lo; cbn in *; lia.
  - destruct hi; cbn in *; lia.
  - exact (IHl lo (Some v) Hl Hal).
  - exact (IHr (Some v) hi Hr Har).
Qed.

(** ** The builder *)

Lemma size_cons x v : size (x :: v) = size v + 1.
Proof. unfold size. cbn [length]. lia. Qed.

Lemma get_middle pre x rest : get (pre ++ x :: rest) (size pre) = x.
Proof.
  rewrite get_app_r by lia. now rewrite Z.sub_diag.
Qed.

(** On any vector [build] returns a tree that respects the bounds it was
    given; the cursor stays inside the vector, and it moves forward unless
    the subtree is empty. *)
Lemma build_total nums :
  fits_int nums ->
  forall fuel index lo hi,
    0 <= index <= size nums ->
    (Z.to_nat (size nums - index) < fuel)%nat ->
    exists t index',
      BST.build fuel nums index lo hi = Ret (t, index') /\
      index <= index' <= size nums /\
      ((t = Leaf /\ index' = index) \/ index < index') /\
      bst_between (Some lo) (Some hi) t.
Proof.
  intros Hv. assert (Hfit := Hv). unfold fits_int, INT_MAX in Hfit.
  pose proof (size_nonneg nums) as Hsz.
  induction fuel as [|fuel IH]; intros index lo hi Hi Hf; [lia|].
  cbn [BST.build].
  rewrite (to_int_id (size nums)) by (unfold INT_MIN, INT_MAX; lia).
  destruct (index >=? size nums) eqn:E;
    [|rewrite Z.geb_leb in E; apply Z.leb_gt in E].
  { exists Leaf, index. cbn. repeat split; try lia. left. now split. }
  rewrite at_int_get by (assumption || lia). cbn [bind].
  destruct ((get nums index <=? lo) || (get nums index >=? hi)) eqn:G.
  { exists Leaf, index. cbn. repeat split; try lia. left. now split. }
  apply orb_false_iff in G. destruct G as (G1 & G2).
  apply Z.leb_gt in G1. rewrite Z.geb_leb in G2. apply Z.leb_gt in G2.
  rewrite (to_int_id (index + 1)) by (unfold INT_MIN, INT_MAX; lia).
  destruct (IH (index + 1) lo (get nums index)) as (l & i1 & -> & Hi1 & _ & Hl);
    [lia | lia |].
  cbn [bind].
  destruct (IH i1 (get nums index) hi) as (r & i2 & -> & Hi2 & _ & Hr);
    [lia | lia |].
  cbn [bind].
  exists (Node l (get nums index) r), i2.
  split; [reflexivity | split; [lia | split; [right; lia|]]].
  cbn [bst_between above below]. repeat split; assumption.
Qed.

(** [build] reads back the pre-order sequence of a tree that respects the
    bounds, and leaves the cursor right behind it. *)
Lemma build_preorder t :
  forall fuel nums pre rest lo hi,
    nums = pre ++ preorder t ++ rest ->
    fits_int nums ->
    bst_between (Some lo) (Some hi) t ->
    stops lo hi rest ->
    (nodes t < fuel)%nat ->
    BST.build fuel nums (size pre) lo hi =
      Ret (t, size pre + size (preorder t)).
Proof.
  induction t as [|l IHl v r IHr]; intros fuel nums pre rest lo hi Hnums Hv Hbst Hstop Hf;
    (destruct fuel as [|fuel]; [cbn in Hf; lia|]);
    assert (Hfit := Hv); unfold fits_int, INT_MAX in Hfit;
    pose proof (size_nonneg pre) as Hpre;
    cbn [BST.build];
    rewrite (to_int_id (size nums)) by
      (unfold INT_MIN, INT_MAX; pose proof (size_nonneg nums); lia).
  - cbn [preorder app] in Hnums. change (size (preorder Leaf)) with 0.
    rewrite Z.add_0_r.
    destruct rest as [|x rest].
    + rewrite app_nil_r in Hnums. subst nums.
      replace (size pre >=? size pre) with true
        by (symmetry; apply Z.geb_le; lia).
      reflexivity.
    + assert (Hs : size nums = size pre + size rest + 1)
        by (subst nums; rewrite size_app, size_cons; lia).
      pose proof (size_nonneg rest).
      replace (size pre >=? size nums) with false
        by (symmetry; rewrite Z.geb_leb; apply Z.leb_gt; lia).
      rewrite at_int_get by (assumption || lia). cbn [bind].
      assert (Hg : get nums (size pre) = x) by (subst nums; apply get_middle).
      rewrite Hg. cbn [stops] in Hstop.
      replace ((x <=? lo) || (x >=? hi)) with true; [reflexivity|].
      symmetry. apply orb_true_iff.
      destruct Hstop; [left; apply Z.leb_le | right; apply Z.geb_le]; lia.
  - cbn [preorder] in Hnums. cbn [bst_between above below] in Hbst.
    destruct Hbst as (Hlo & Hhi & Hl & Hr).
    assert (Hs : size nums =
                 size pre + 1 + size (preorder l) + size (preorder r) + size rest).
    { subst nums. cbn [app]. rewrite size_app, size_cons, !size_app. lia. }
    pose proof (size_nonneg (preorder l)). pose proof (size_nonneg (preorder r)).
    pose proof (size_nonneg rest).
    replace (size pre >=? size nums) with false
      by (symmetry; rewrite Z.geb_leb; apply Z.leb_gt; lia).
    rewrite at_int_get by (assumption || lia). cbn [bind].
    assert (Hg : get nums (size pre) = v) by (subst nums; apply get_middle).
    rewrite Hg.
    replace ((v <=? lo) || (v >=? hi)) with false.
    2:{ symmetry. apply orb_false_iff.
        split; [apply Z.leb_gt | rewrite Z.geb_leb; apply Z.leb_gt]; lia. }
    rewrite (to_int_id (size pre + 1)) by (unfold INT_MIN, INT_MAX; lia).
    cbn [nodes] in Hf.
    replace (size pre + 1) with (size (pre ++ [v]))
      by (rewrite size_app; reflexivity).
    rewrite (IHl fuel nums (pre ++ [v]) (preorder r ++ rest) lo v);
      try (assumption || lia).
    2:{ subst nums. cbn [app]. rewrite <- !app_assoc. reflexivity. }
    2:{ destruct r as [|rl rv rr]; cbn [preorder app stops].
        - destruct rest; cbn [stops] in *; [exact I | lia].
        - cbn [bst_between above] in Hr. right. lia. }
    cbn [bind].
    replace (size (pre ++ [v]) + size (preorder l))
      with (size (pre ++ v :: preorder l))
      by (rewrite !size_app, size_cons; cbn; lia).
    rewrite (IHr fuel nums (pre ++ v :: preorder l) rest v hi);
      try (assumption || lia).
    2:{ subst nums. cbn [app]. rewrite <- !app_assoc. reflexivity. }
    2:{ destruct rest; cbn [stops] in *; [exact I | lia]. }
    cbn [bind preorder]. f_equal. f_equal.
    rewrite size_app, !size_cons, size_app. lia.
Qed.

Lemma sortedArrayToBST_run_total nums :
  fits_int nums ->
  exists t index,
    BST.sortedArrayToBST_run nums = Ret (t, index) /\
    0 <= index <= size nums /\ bst_between (Some INT_MIN) (Some INT_MAX) t.
Proof.
  intros Hv. destruct nums as [|x nums'].
  - exists Leaf, 0. cbn. repeat split; lia.
  - set (nums := x :: nums') in *. unfold BST.sortedArrayToBST_run.
    change (match nums with [] => Ret (Leaf, 0) | _ :: _ =>
              let index := 0 in
              BST.build (Datatypes.S (length nums)) nums index INT_MIN INT_MAX end)
      with (BST.build (Datatypes.S (length nums)) nums 0 INT_MIN INT_MAX).
    pose proof (size_nonneg nums).
    destruct (build_total nums Hv (Datatypes.S (length nums)) 0 INT_MIN INT_MAX)
      as (t & index & Hb & Hi & _ & Hbst); [lia | unfold size; lia |].
    exists t, index. split; [exact Hb | split; [lia | exact Hbst]].
Qed.

(** For values strictly between the least and the greatest [int] the
    builder inverts [preorder]: it returns the tree the sequence came from
    and leaves the cursor at the end of the sequence. *)
Lemma sortedArrayToBST_preorder_in_range t :
  strictly_increasing (inorder t) ->
  Forall (fun x => INT_MIN < x < INT_MAX) (preorder t) ->
  fits_int (preorder t) ->
  BST.sortedArrayToBST_run (preorder t) = Ret (t, size (preorder t)).
Proof.
  intros Hs Hall Hv.
  apply is_bst_inorder in Hs.
  pose proof (bst_between_clamp INT_MIN INT_MAX t None None Hs Hall) as Hb.
  destruct t as [|l v r]; [reflexivity|].
  set (u := Node l v r) in *.
  assert (Hlen : length (preorder u) = nodes u).
  { clearbody u. clear. induction u as [|a IHa x b IHb]; [reflexivity|].
    cbn. rewrite length_app. lia. }
  unfold BST.sortedArrayToBST_run.
  replace (match preorder u with
           | [] => Ret (Leaf, 0)
           | _ :: _ =>
               let index := 0 in
               BST.build (Datatypes.S (length (preorder u))) (preorder u) index
                         INT_MIN INT_MAX
           end)
    with (BST.build (Datatypes.S (length (preorder u))) (preorder u) (size [])
                    INT_MIN INT_MAX)
    by reflexivity.
  rewrite (build_preorder u _ (preorder u) [] [] INT_MIN INT_MAX);
    try assumption.
  - reflexivity.
  - cbn [app]. now rewrite app_nil_r.
  - exact I.
  - lia.
Qed.

(** In that range building from the pre-order sequence preserves the
    in-order sequence. *)
Lemma round_trip_in_range t :
  strictly_increasing (inorder t) ->
  Forall (fun x => INT_MIN < x < INT_MAX) (preorder t) ->
  fits_int (preorder t) ->
  BST.isValidBST t = Ret true /\
  exists t', BST.sortedArrayToBST (preorder t) = Ret t' /\
             inorder t' = inorder t.
Proof.
  intros Hs Hall Hv. split.
  - rewrite isValidBST_spec. f_equal. now apply ascending_after_increasing.
  - exists t. unfold BST.sortedArrayToBST.
    rewrite sortedArrayToBST_preorder_in_range by assumption.
    split; reflexivity.
Qed.

(** C8.  For every sequence of integers of a size an [int] can hold,
    pre-order of a search tree or not, [sortedArrayToBST] returns a tree
    whose in-order value sequence is strictly increasing, and [isValidBST]
    accepts that tree. *)
Theorem sortedArrayToBST_yields_bst (nums : vec) :
  fits_int nums ->
  exists t, BST.sortedArrayToBST nums = Ret t /\
            strictly_increasing (inorder t) /\
            BST.isValidBST t = Ret true.
Proof.
  intros Hv.
  destruct (sortedArrayToBST_run_total nums Hv) as (t & index & Hrun & _ & Hb).
  exists t. unfold BST.sortedArrayToBST. rewrite Hrun. cbn [bind].
  split; [reflexivity|].
  assert (Hs : strictly_increasing (inorder t)).
  { apply is_bst_inorder. unfold is_bst. eapply bst_between_weaken. exact Hb. }
  split; [exact Hs|].
  rewrite isValidBST_spec. f_equal. now apply ascending_after_increasing.
Qed.

Lemma sortedArrayToBST_yields_bst_witness :
  exists t, BST.sortedArrayToBST [10; 5; 12; 1; 7] = Ret t /\
            strictly_increasing (inorder t) /\
            BST.isValidBST t = Ret true.
Proof.
  apply (sortedArrayToBST_yields_bst [10; 5; 12; 1; 7]).
  unfold fits_int, size, INT_MAX. cbn. lia.
Defined.

(** C4 at the pre-order sequence of the one-node search tree that holds
    the greatest [int]: the builder returns the empty tree and never moves
    its cursor, so the result is not the tree the sequence came from, the
    cursor is not at the end, and the value is missing from the result. *)
Theorem sortedArrayToBST_drops_INT_MAX :
  let t := Node Leaf INT_MAX Leaf in
  strictly_increasing (inorder t) /\
  preorder t = [2147483647] /\
  BST.sortedArrayToBST_run (preorder t) = Ret (Leaf, 0) /\
  Leaf <> t /\ 0 <> size (preorder t) /\ preorder Leaf <> preorder t.
Proof.
  cbv zeta. split; [|split; [|split; [|split; [|split]]]].
  - unfold strictly_increasing. cbn. repeat constructor.
  - reflexivity.
  - reflexivity.
  - discriminate.
  - discriminate.
  - discriminate.
Qed.

(** C5 at a three-node search tree that holds the least [int]: the
    validator accepts the tree, but the builder stops at the least [int]
    and drops it and everything after it, so the in-order sequences
    differ. *)
Theorem round_trip_loses_INT_MIN :
  let t := Node (Node Leaf INT_MIN Leaf) 5 (Node Leaf 7 Leaf) in
  strictly_increasing (inorder t) /\
  BST.isValidBST t = Ret true /\
  preorder t = [5; -2147483648; 7] /\
  BST.sortedArrayToBST (preorder t) = Ret (Node Leaf 5 Leaf) /\
  inorder (Node Leaf 5 Leaf) <> inorder t.
Proof.
  cbv zeta. split; [|split; [|split; [|split]]].
  - unfold strictly_increasing. cbn. repeat constructor.
  - reflexivity.
  - reflexivity.
  - reflexivity.
  - discriminate.
Qed.

(** ** Termination *)

(** An iteration of [search] that continues keeps the interval inside the
    old one and makes it strictly narrower. *)
Lemma search_body_shrinks nums target lo hi lo' hi' :
  fits_int nums -> 0 <= lo -> hi < size nums ->
  Rotated.search_body nums target (lo, hi) = Ret (Continue (lo', hi')) ->
  lo <= lo' /\ hi' <= hi /\ lo' <= hi' + 1 /\ hi' - lo' < hi - lo.
Proof.
  intros Hv H0 Hhi. rewrite search_body_eq by assumption.
  destruct (lo <=? hi) eqn:E; [apply Z.leb_le in E | discriminate].
  cbv zeta. pose proof (half_bounds lo hi E) as Hmid.
  set (mid := lo + (hi - lo) / 2) in *.
  destruct (get nums mid =? target); [discriminate|].
  destruct (get nums lo <=? get nums mid);
    match goal with |- context [if ?c then _ else _] => destruct c end;
    intros [= <- <-]; lia.
Qed.

(** The same for [findPeakIndex]; here [left <= right] is kept. *)
Lemma findPeakIndex_body_shrinks arr lo hi lo' hi' :
  fits_int arr -> 0 <= lo -> hi < size arr ->
  Mountain.findPeakIndex_body arr (lo, hi) = Ret (Continue (lo', hi')) ->
  lo <= lo' /\ hi' <= hi /\ lo' <= hi' /\ hi' - lo' < hi - lo.
Proof.
  intros Hv H0 Hhi. rewrite findPeakIndex_body_eq by assumption.
  destruct (lo <? hi) eqn:E; [apply Z.ltb_lt in E | discriminate].
  cbv zeta. pose proof (half_bounds lo hi ltac:(lia)) as Hmid.
  pose proof (half_lt lo hi E) as Hmid'.
  set (mid := lo + (hi - lo) / 2) in *.
  destruct (get arr mid <? get arr (mid + 1)); intros [= <- <-]; lia.
Qed.

(** The same for the loop of [std::lower_bound]: the window stays inside
    the old one and its length strictly decreases. *)
Lemma lower_bound_body_shrinks arr value comp first len first' len' :
  0 <= first -> first + len <= size arr ->
  Mountain.lower_bound_body arr value comp (first, len)
    = Ret (Continue (first', len')) ->
  first <= first' /\ first' + len' <= first + len /\ 0 <= len' < len.
Proof.
  intros H0 Hlast. rewrite lower_bound_body_eq by assumption.
  destruct (len >? 0) eqn:E; [|discriminate].
  rewrite Z.gtb_ltb in E. apply Z.ltb_lt in E. cbv zeta.
  assert (0 <= len / 2 < len)
    by (split; [apply Z.div_pos; lia | apply Z.div_lt_upper_bound; lia]).
  destruct (comp (get arr (first + len / 2)) value); intros [= <- <-]; lia.
Qed.

(** An iteration of the validator that continues has one value fewer to
    visit. *)
Lemma isValidBST_body_shrinks b s s' :
  valid_inv b s -> BST.isValidBST_body s = Ret (Continue s') ->
  valid_inv b s' /\ (valid_measure s' < valid_measure s)%nat.
Proof.
  intros Hs Hbody.
  destruct (isValidBST_body_ok b s Hs) as [(r & Hr & _) | (s'' & Hc & Hi & Hm)].
  - rewrite Hr in Hbody. discriminate.
  - rewrite Hc in Hbody. injection Hbody as <-. split; assumption.
Qed.

(** C10.  On every tree, and on every vector of a size an [int] can hold,
    the four entry points return: the runs end in [Ret], not in [OutOfFuel]
    (and not in [Fault]).  The reasons are the ones the loops show: an
    iteration of a binary-search loop that continues strictly narrows its
    interval, an iteration of the validator that continues has strictly
    fewer values left to visit, and a call of [build] returns the empty
    subtree with the cursor unmoved or a subtree with the cursor strictly
    advanced, never past the end. *)
Theorem all_calls_terminate :
  (forall nums target, fits_int nums ->
     exists r, Rotated.search nums target = Ret r) /\
  (forall arr target, fits_int arr ->
     exists r, Mountain.findTargetInMountainArray arr target = Ret r) /\
  (forall root, exists b, BST.isValidBST root = Ret b) /\
  (forall nums, fits_int nums ->
     exists t, BST.sortedArrayToBST nums = Ret t) /\
  (forall nums target lo hi lo' hi',
     fits_int nums -> 0 <= lo -> hi < size nums ->
     Rotated.search_body nums target (lo, hi) = Ret (Continue (lo', hi')) ->
     lo <= lo' /\ hi' <= hi /\ lo' <= hi' + 1 /\ hi' - lo' < hi - lo) /\
  (forall arr lo hi lo' hi',
     fits_int arr -> 0 <= lo -> hi < size arr ->
     Mountain.findPeakIndex_body arr (lo, hi) = Ret (Continue (lo', hi')) ->
     lo <= lo' /\ hi' <= hi /\ lo' <= hi' /\ hi' - lo' < hi - lo) /\
  (forall arr value comp first len first' len',
     0 <= first -> first + len <= size arr ->
     Mountain.lower_bound_body arr value comp (first, len)
       = Ret (Continue (first', len')) ->
     first <= first' /\ first' + len' <= first + len /\ 0 <= len' < len) /\
  (forall b s s',
     valid_inv b s -> BST.isValidBST_body s = Ret (Continue s') ->
     valid_inv b s' /\ (valid_measure s' < valid_measure s)%nat) /\
  (forall nums fuel index lo hi,
     fits_int nums -> 0 <= index <= size nums ->
     (Z.to_nat (size nums - index) < fuel)%nat ->
     exists t index',
       BST.build fuel nums index lo hi = Ret (t, index') /\
       index' <= size nums /\
       ((t = Leaf /\ index' = index) \/ index < index')).
Proof.
  split; [|split; [|split; [|split; [|split; [|split; [|split; [|split]]]]]]].
  - intros nums target Hv.
    destruct nums as [|x nums']; [exists (-1); reflexivity|].
    set (nums := x :: nums') in *.
    destruct (search_loop_total nums target Hv
                (0, to_int (to_size_t (size nums - 1)))
                (Rotated.search_fuel nums)) as (r & Hr & _).
    + rewrite last_position by (assumption || discriminate).
      pose proof (size_nonneg nums). unfold search_inv. cbn [fst snd]. lia.
    + rewrite last_position by (assumption || discriminate).
      unfold search_measure, Rotated.search_fuel, size. cbn [fst snd]. lia.
    + exists r. exact Hr.
  - intros arr target Hv.
    destruct (findTarget_total arr target Hv) as (r & Hr & _). now exists r.
  - intros root. eexists. apply isValidBST_spec.
  - intros nums Hv.
    destruct (sortedArrayToBST_run_total nums Hv) as (t & index & Hrun & _).
    exists t. unfold BST.sortedArrayToBST. now rewrite Hrun.
  - apply search_body_shrinks.
  - apply findPeakIndex_body_shrinks.
  - apply lower_bound_body_shrinks.
  - apply isValidBST_body_shrinks.
  - intros nums fuel index lo hi Hv Hi Hf.
    destruct (build_total nums Hv fuel index lo hi Hi Hf)
      as (t & index' & Hb & Hi' & Hadv & _).
    exists t, index'. split; [exact Hb | split; [lia | exact Hadv]].
Qed.

Lemma all_calls_terminate_witness :
  (exists r, Rotated.search [4; 5; 6; 7; 0; 1; 2] 3 = Ret r) /\
  (exists r, Mountain.findTargetInMountainArray [0; 1; 2; 4; 2; 1] 3 = Ret r) /\
  (exists t, BST.sortedArrayToBST [10; 5; 1; 7; 15; 12; 20] = Ret t).
Proof.
  destruct all_calls_terminate as (Hsearch & Hmountain & _ & Hbuild & _).
  split; [|split].
  - apply (Hsearch [4; 5; 6; 7; 0; 1; 2] 3).
    unfold fits_int, size, INT_MAX. cbn. lia.
  - apply (Hmountain [0; 1; 2; 4; 2; 1] 3).
    unfold fits_int, size, INT_MAX. cbn. lia.
  - apply (Hbuild [10; 5; 1; 7; 15; 12; 20]).
    unfold fits_int, size, INT_MAX. cbn. lia.
Defined.

(** * Further properties of the same code *)

(** ** Searches on arbitrary vectors *)

(** X1.  On every vector of a size an [int] can hold, sorted or not,
    rotated or not, [search] returns [-1] or a valid position whose
    element is the target: it never reports a position that does not hold
    the target. *)
Theorem search_reports_only_hits (nums : vec) (target : Z) :
  fits_int nums ->
  exists r, Rotated.search nums target = Ret r /\
            (r = -1 \/
             (0 <= r < size nums /\
              nth_error nums (Z.to_nat r) = Some target)).
Proof.
  intros Hv.
  destruct nums as [|x nums']; [exists (-1); split; [reflexivity | now left]|].
  set (nums := x :: nums') in *.
  destruct (search_loop_total nums target Hv
              (0, to_int (to_size_t (size nums - 1)))
              (Rotated.search_fuel nums)) as (r & Hr & Hpost).
  - rewrite last_position by (assumption || discriminate).
    pose proof (size_nonneg nums). unfold search_inv. cbn [fst snd]. lia.
  - rewrite last_position by (assumption || discriminate).
    unfold search_measure, Rotated.search_fuel, size. cbn [fst snd]. lia.
  - exists r. split; [exact Hr|].
    destruct Hpost as [-> | (Hb & Hg)]; [now left | right].
    split; [exact Hb|]. rewrite get_nth_error by exact Hb. now f_equal.
Qed.

Lemma search_reports_only_hits_witness :
  exists r, Rotated.search [3; 9; 2; 9; 1] 9 = Ret r /\
            (r = -1 \/
             (0 <= r < size [3; 9; 2; 9; 1] /\
              nth_error [3; 9; 2; 9; 1] (Z.to_nat r) = Some 9)).
Proof.
  apply (search_reports_only_hits [3; 9; 2; 9; 1] 9).
  unfold fits_int, size, INT_MAX. cbn. lia.
Defined.

Lemma findPeakIndex_body_local arr s :
  fits_int arr -> local_peak_inv arr s ->
  (exists r, Mountain.findPeakIndex_body arr s = Ret (Break r) /\
             0 <= r < size arr /\
             (r = 0 \/ get arr (r - 1) < get arr r) /\
             (r = size arr - 1 \/ get arr (r + 1) <= get arr r)) \/
  (exists s', Mountain.findPeakIndex_body arr s = Ret (Continue s') /\
              local_peak_inv arr s' /\ (peak_measure s' < peak_measure s)%nat).
Proof.
  intros Hv. destruct s as [lo hi]. unfold local_peak_inv. cbn [fst snd].
  intros (H0 & Hle & Hhi & Hleft & Hright).
  rewrite findPeakIndex_body_eq by assumption.
  destruct (lo <? hi) eqn:E; [apply Z.ltb_lt in E | apply Z.ltb_ge in E].
  - right. cbv zeta.
    pose proof (half_bounds lo hi ltac:(lia)) as Hmid.
    pose proof (half_lt lo hi E) as Hmid'.
    set (mid := lo + (hi - lo) / 2) in *.
    unfold peak_measure.
    destruct (get arr mid <? get arr (mid + 1)) eqn:C;
      [apply Z.ltb_lt in C | apply Z.ltb_ge in C];
      eexists; (split; [reflexivity|]); cbn [fst snd];
      (split; [|lia]);
      (split; [lia | split; [lia | split; [lia | split]]]).
    + right. replace (mid + 1 - 1) with mid by lia. exact C.
    + exact Hright.
    + exact Hleft.
    + right. exact C.
  - left. assert (lo = hi) by lia. subst hi.
    eexists. split; [reflexivity|]. split; [lia | split; assumption].
Qed.

(** X2.  On every non-empty vector of a size an [int] can hold, mountain
    or not, [findPeakIndex] returns a valid position that is a local peak:
    its left neighbour, if any, is smaller, and its right neighbour, if
    any, is not greater. *)
Theorem findPeakIndex_local_peak (arr : vec) :
  fits_int arr -> arr <> [] ->
  exists p, Mountain.findPeakIndex arr = Ret p /\
            0 <= p < size arr /\
            (p = 0 \/ get arr (p - 1) < get arr p) /\
            (p = size arr - 1 \/ get arr (p + 1) <= get arr p).
Proof.
  intros Hv Hne. unfold Mountain.findPeakIndex. cbv zeta.
  rewrite last_position by assumption.
  assert (0 < size arr) by (unfold size; destruct arr; [congruence | cbn; lia]).
  apply (while_loop_total _ (local_peak_inv arr) peak_measure).
  - intros s Hs. exact (findPeakIndex_body_local arr s Hv Hs).
  - unfold local_peak_inv. cbn [fst snd].
    split; [lia | split; [lia | split; [lia | split; left; reflexivity]]].
  - unfold peak_measure, size. cbn [fst snd]. lia.
Qed.

Lemma findPeakIndex_local_peak_witness :
  exists p, Mountain.findPeakIndex [5; 1; 4; 4; 2; 8; 3] = Ret p /\
            0 <= p < size [5; 1; 4; 4; 2; 8; 3] /\
            (p = 0 \/ get [5; 1; 4; 4; 2; 8; 3] (p - 1) < get [5; 1; 4; 4; 2; 8; 3] p) /\
            (p = size [5; 1; 4; 4; 2; 8; 3] - 1 \/
             get [5; 1; 4; 4; 2; 8; 3] (p + 1) <= get [5; 1; 4; 4; 2; 8; 3] p).
Proof.
  apply (findPeakIndex_local_peak [5; 1; 4; 4; 2; 8; 3]).
  - unfold fits_int, size, INT_MAX. cbn. lia.
  - discriminate.
Defined.

(** X3.  On a mountain array of a size an [int] can hold, [findPeakIndex]
    returns exactly the peak position. *)
Theorem findPeakIndex_finds_peak (arr : vec) (peak : Z) :
  mountain arr peak -> fits_int arr ->
  Mountain.findPeakIndex arr = Ret peak.
Proof.
  intros Hm Hv.
  assert (Hne : arr <> []).
  { destruct Hm as (Hp & _). intros ->. cbn in Hp. lia. }
  destruct (findPeakIndex_spec arr peak Hv Hne) as (p & Hp & _ & Hpk).
  rewrite Hp. f_equal. exact (Hpk Hm).
Qed.

Lemma findPeakIndex_finds_peak_witness :
  Mountain.findPeakIndex [0; 1; 2; 4; 2; 1] = Ret 3.
Proof.
  apply (findPeakIndex_finds_peak [0; 1; 2; 4; 2; 1] 3).
  - apply (mountain_intro [0; 1; 2] 4 [2; 1]).
    + unfold strictly_increasing. repeat constructor.
    + unfold strictly_decreasing. repeat constructor.
  - unfold fits_int, size, INT_MAX. cbn. lia.
Defined.

(** ** The two half-searches on their own *)

(** X4.  On positions [left .. right] of a vector (of a size an [int] can
    hold) where the elements strictly ascend, [binarySearchAscending]
    returns the position of the target when it occurs in that range, and
    [-1] when it does not; elements outside the range play no part. *)
Theorem binarySearchAscending_finds (arr : vec) (target left right : Z) :
  fits_int arr -> 0 <= left -> 0 <= right -> left <= right + 1 ->
  right < size arr ->
  (forall i j, left <= i -> i < j -> j <= right -> get arr i < get arr j) ->
  (forall t, left <= t <= right -> get arr t = target ->
     Mountain.binarySearchAscending arr target left right = Ret t) /\
  ((forall t, left <= t <= right -> get arr t <> target) ->
     Mountain.binarySearchAscending arr target left right = Ret (-1)).
Proof.
  intros Hv H0 Hr0 Hle Hr Hsorted.
  destruct (binarySearchAscending_sorted arr target left right)
    as (r & Hres & Hpost); try assumption.
  rewrite Hres. split.
  - intros t Ht Hg. f_equal.
    destruct Hpost as [(Hb & Hgr) | (_ & Hmiss)];
      [|exfalso; exact (Hmiss t Ht Hg)].
    destruct (Z.lt_trichotomy r t) as [Hlt | [? | Hgt]]; [|assumption|].
    + pose proof (Hsorted r t). lia.
    + pose proof (Hsorted t r). lia.
  - intros Hnone. f_equal.
    destruct Hpost as [(Hb & Hgr) | (? & _)]; [|assumption].
    exfalso. exact (Hnone r Hb Hgr).
Qed.

Lemma binarySearchAscending_finds_witness :
  (forall t, 1 <= t <= 3 -> get [9; 1; 3; 5; 0] t = 5 ->
     Mountain.binarySearchAscending [9; 1; 3; 5; 0] 5 1 3 = Ret t) /\
  ((forall t, 1 <= t <= 3 -> get [9; 1; 3; 5; 0] t <> 5) ->
     Mountain.binarySearchAscending [9; 1; 3; 5; 0] 5 1 3 = Ret (-1)).
Proof.
  apply (binarySearchAscending_finds [9; 1; 3; 5; 0] 5 1 3).
  - unfold fits_int, size, INT_MAX. cbn. lia.
  - lia.
  - lia.
  - lia.
  - unfold size. cbn. lia.
  - intros i j Hi Hij Hj.
    assert (Hc : (i = 1 /\ j = 2) \/ (i = 1 /\ j = 3) \/ (i = 2 /\ j = 3)) by lia.
    destruct Hc as [(-> & ->) | [(-> & ->) | (-> & ->)]]; reflexivity.
Defined.

(** X5.  On positions [left .. right] where the elements strictly descend,
    [binarySearchDescending] returns the position of the target when it
    occurs in that range, and [-1] when it does not. *)
Theorem binarySearchDescending_finds (arr : vec) (target left right : Z) :
  fits_int arr -> 0 <= left -> 0 <= right -> left <= right + 1 ->
  right < size arr ->
  (forall i j, left <= i -> i < j -> j <= right -> get arr j < get arr i) ->
  (forall t, left <= t <= right -> get arr t = target ->
     Mountain.binarySearchDescending arr target left right = Ret t) /\
  ((forall t, left <= t <= right -> get arr t <> target) ->
     Mountain.binarySearchDescending arr target left right = Ret (-1)).
Proof.
  intros Hv H0 Hr0 Hle Hr Hsorted.
  destruct (binarySearchDescending_sorted arr target left right)
    as (r & Hres & Hpost); try assumption.
  rewrite Hres. split.
  - intros t Ht Hg. f_equal.
    destruct Hpost as [(Hb & Hgr) | (_ & Hmiss)];
      [|exfalso; exact (Hmiss t Ht Hg)].
    destruct (Z.lt_trichotomy r t) as [Hlt | [? | Hgt]]; [|assumption|].
    + pose proof (Hsorted r t). lia.
    + pose proof (Hsorted t r). lia.
  - intros Hnone. f_equal.
    destruct Hpost as [(Hb & Hgr) | (? & _)]; [|assumption].
    exfalso. exact (Hnone r Hb Hgr).
Qed.

Lemma binarySearchDescending_finds_witness :
  (forall t, 1 <= t <= 3 -> get [0; 8; 6; 2; 7] t = 2 ->
     Mountain.binarySearchDescending [0; 8; 6; 2; 7] 2 1 3 = Ret t) /\
  ((forall t, 1 <= t <= 3 -> get [0; 8; 6; 2; 7] t <> 2) ->
     Mountain.binarySearchDescending [0; 8; 6; 2; 7] 2 1 3 = Ret (-1)).
Proof.
  apply (binarySearchDescending_finds [0; 8; 6; 2; 7] 2 1 3).
  - unfold fits_int, size, INT_MAX. cbn. lia.
  - lia.
  - lia.
  - lia.
  - unfold size. cbn. lia.
  - intros i j Hi Hij Hj.
    assert (Hc : (i = 1 /\ j = 2) \/ (i = 1 /\ j = 3) \/ (i = 2 /\ j = 3)) by lia.
    destruct Hc as [(-> & ->) | [(-> & ->) | (-> & ->)]]; reflexivity.
Defined.



(** X7.  On every vector of a size an [int] can hold, mountain or not,
    [findTargetInMountainArray] returns [-1] or a valid position whose
    element is the target. *)
Theorem findTarget_reports_only_hits (arr : vec) (target : Z) :
  fits_int arr ->
  exists r, Mountain.findTargetInMountainArray arr target = Ret r /\
            (r = -1 \/
             (0 <= r < size arr /\
              nth_error arr (Z.to_nat r) = Some target)).
Proof.
  intros Hv. destruct (findTarget_total arr target Hv) as (r & Hr & Hpost).
  exists r. split; [exact Hr|].
  destruct Hpost as [-> | (Hb & Hg)]; [now left | right].
  split; [exact Hb|]. rewrite get_nth_error by exact Hb. now f_equal.
Qed.

Lemma findTarget_reports_only_hits_witness :
  exists r, Mountain.findTargetInMountainArray [2; 7; 1; 7; 3] 7 = Ret r /\
            (r = -1 \/
             (0 <= r < size [2; 7; 1; 7; 3] /\
              nth_error [2; 7; 1; 7; 3] (Z.to_nat r) = Some 7)).
Proof.
  apply (findTarget_reports_only_hits [2; 7; 1; 7; 3] 7).
  unfold fits_int, size, INT_MAX. cbn. lia.
Defined.

(** ** The fold expressions and [divide] *)

Lemma to_int_in_int z : in_int (to_int z).
Proof.
  unfold in_int, to_int, INT_MIN, INT_MAX.
  pose proof (Z.mod_pos_bound (z + 2 ^ 31) (2 ^ 32) ltac:(lia)). lia.
Qed.

Lemma to_int_congr a b :
  a mod 2 ^ 32 = b mod 2 ^ 32 -> to_int a = to_int b.
Proof.
  intros H. unfold to_int. f_equal.
  rewrite (Z.add_mod a), (Z.add_mod b) by lia. now rewrite H.
Qed.

Lemma to_int_mod z : to_int z mod 2 ^ 32 = z mod 2 ^ 32.
Proof.
  unfold to_int.
  rewrite Zminus_mod, Z.mod_mod by lia.
  rewrite <- Zminus_mod. f_equal. lia.
Qed.

Lemma to_int_add_l a b : to_int (to_int a + b) = to_int (a + b).
Proof.
  apply to_int_congr.
  rewrite (Z.add_mod (to_int a)), (Z.add_mod a) by lia.
  now rewrite to_int_mod.
Qed.

Lemma to_int_mul_r a b : to_int (a * to_int b) = to_int (a * b).
Proof.
  apply to_int_congr.
  rewrite (Z.mul_mod a (to_int b)), (Z.mul_mod a b) by lia.
  now rewrite to_int_mod.
Qed.

Lemma sum_all_wraps args :
  forall a, in_int a ->
            Cpp17.sum_all a args = to_int (a + fold_right Z.add 0 args).
Proof.
  unfold Cpp17.sum_all.
  induction args as [|x args IH]; intros a Ha; cbn [fold_left fold_right].
  - rewrite Z.add_0_r. symmetry. now apply to_int_id.
  - rewrite IH by apply to_int_in_int.
    rewrite to_int_add_l. f_equal. lia.
Qed.

(** X8.  [sum_all] on [int] arguments returns the 32-bit wrap of their
    exact sum; so it returns the exact sum whenever that is an [int]. *)
Theorem sum_all_is_sum (a : Z) (args : list Z) :
  in_int a ->
  Cpp17.sum_all a args = to_int (a + fold_right Z.add 0 args) /\
  (in_int (a + fold_right Z.add 0 args) ->
   Cpp17.sum_all a args = a + fold_right Z.add 0 args).
Proof.
  intros Ha. rewrite sum_all_wraps by exact Ha. split; [reflexivity|].
  intros Hfit. now apply to_int_id.
Qed.

Lemma sum_all_is_sum_witness :
  Cpp17.sum_all 1 [2; 3; 4; 5] = to_int (1 + fold_right Z.add 0 [2; 3; 4; 5]) /\
  (in_int (1 + fold_right Z.add 0 [2; 3; 4; 5]) ->
   Cpp17.sum_all 1 [2; 3; 4; 5] = 1 + fold_right Z.add 0 [2; 3; 4; 5]).
Proof.
  apply (sum_all_is_sum 1 [2; 3; 4; 5]).
  unfold in_int, INT_MIN, INT_MAX. lia.
Defined.

Lemma multiply_all_wraps args :
  forall a, in_int a -> Forall in_int args ->
            Cpp17.multiply_all a args = to_int (a * fold_right Z.mul 1 args).
Proof.
  induction args as [|b args IH]; intros a Ha Hargs;
    cbn [Cpp17.multiply_all fold_right].
  - rewrite Z.mul_1_r. symmetry. now apply to_int_id.
  - apply Forall_cons_iff in Hargs. destruct Hargs as (Hb & Hargs).
    rewrite (IH b Hb Hargs). now rewrite to_int_mul_r.
Qed.

(** X9.  [multiply_all] on [int] arguments, although it folds from the
    right, returns the 32-bit wrap of their exact product; so it returns
    the exact product whenever that is an [int]. *)
Theorem multiply_all_is_product (a : Z) (args : list Z) :
  in_int a -> Forall in_int args ->
  Cpp17.multiply_all a args = to_int (a * fold_right Z.mul 1 args) /\
  (in_int (a * fold_right Z.mul 1 args) ->
   Cpp17.multiply_all a args = a * fold_right Z.mul 1 args).
Proof.
  intros Ha Hargs. rewrite multiply_all_wraps by assumption.
  split; [reflexivity|]. intros Hfit. now apply to_int_id.
Qed.

Lemma multiply_all_is_product_witness :
  Cpp17.multiply_all 2 [3; 4] = to_int (2 * fold_right Z.mul 1 [3; 4]) /\
  (in_int (2 * fold_right Z.mul 1 [3; 4]) ->
   Cpp17.multiply_all 2 [3; 4] = 2 * fold_right Z.mul 1 [3; 4]).
Proof.
  apply (multiply_all_is_product 2 [3; 4]).
  - unfold in_int, INT_MIN, INT_MAX. lia.
  - repeat constructor; unfold INT_MIN, INT_MAX; lia.
Defined.

(** X10.  [divide] returns nothing exactly when the divisor is zero.  For
    any other divisor, the overflowing pair [INT_MIN / -1] apart, it
    returns an [int] quotient [q] truncated toward zero: the remainder
    [a - b * q] is smaller than the divisor in absolute value and has the
    sign of the dividend. *)
Theorem divide_truncates (a b : Z) :
  in_int a -> in_int b ->
  (Cpp17.divide a b = None <-> b = 0) /\
  (b <> 0 -> ~ (a = INT_MIN /\ b = -1) ->
   exists q, Cpp17.divide a b = Some q /\ in_int q /\
             Z.abs (a - b * q) < Z.abs b /\
             (0 <= a -> 0 <= a - b * q) /\
             (a <= 0 -> a - b * q <= 0)).
Proof.
  intros Ha Hb. unfold Cpp17.divide. split.
  - destruct (b =? 0) eqn:E; [apply Z.eqb_eq in E | apply Z.eqb_neq in E].
    + split; [intros _; exact E | reflexivity].
    + split; [discriminate | intros ?; contradiction].
  - intros Hb0 Hov.
    replace (b =? 0) with false by (symmetry; now apply Z.eqb_neq).
    pose proof (Z.quot_rem' a b) as Hqr.
    pose proof (Z.rem_bound_abs a b Hb0) as Habs.
    assert (Hsign : (0 <= a -> 0 <= Z.rem a b) /\ (a <= 0 -> Z.rem a b <= 0)).
    { split; intros Hs.
      - pose proof (Z.rem_nonneg a b Hb0 Hs). assumption.
      - pose proof (Z.rem_nonpos a b Hb0 Hs). assumption. }
    set (q := Z.quot a b) in *. set (r := Z.rem a b) in *.
    assert (Hr : a - b * q = r) by lia.
    assert (Hq : in_int q).
    { unfold in_int, INT_MIN, INT_MAX in *. destruct Hsign as (Hs1 & Hs2).
      destruct (Z_le_gt_dec 0 a), (Z_lt_le_dec 0 b); nia. }
    exists q. rewrite (to_int_id q) by exact Hq.
    rewrite Hr. split; [reflexivity | split; [exact Hq | split; [exact Habs | exact Hsign]]].
Qed.

Lemma divide_truncates_witness :
  (Cpp17.divide (-7) 2 = None <-> 2 = 0) /\
  (2 <> 0 -> ~ (-7 = INT_MIN /\ 2 = -1) ->
   exists q, Cpp17.divide (-7) 2 = Some q /\ in_int q /\
             Z.abs (-7 - 2 * q) < Z.abs 2 /\
             (0 <= -7 -> 0 <= -7 - 2 * q) /\
             (-7 <= 0 -> -7 - 2 * q <= 0)).
Proof.
  apply (divide_truncates (-7) 2);
    unfold in_int, INT_MIN, INT_MAX; lia.
Defined.

(** ** More on the validator *)

Lemma isValidBST_true_iff root :
  BST.isValidBST root = Ret true <-> strictly_increasing (inorder root).
Proof.
  rewrite isValidBST_spec, <- ascending_after_increasing.
  split; [intros [= H]; exact H | intros ->; reflexivity].
Qed.

Lemma isValidBST_false_iff root :
  BST.isValidBST root = Ret false <-> ~ strictly_increasing (inorder root).
Proof.
  rewrite isValidBST_spec, <- ascending_after_increasing.
  destruct (ascending_after None (inorder root)).
  - split; [discriminate | intros H; exfalso; now apply H].
  - split; [intros _; discriminate | reflexivity].
Qed.

(** X11.  [isValidBST] accepts exactly the trees in which every node lies
    strictly between the bounds it inherits from its ancestors (above the
    nearest ancestor it is to the right of, below the nearest ancestor it
    is to the left of), and rejects all others. *)
Theorem isValidBST_iff_bounds (root : tree) :
  (BST.isValidBST root = Ret true <-> is_bst root) /\
  (BST.isValidBST root = Ret false <-> ~ is_bst root).
Proof.
  rewrite isValidBST_true_iff, isValidBST_false_iff, is_bst_inorder.
  split; reflexivity.
Qed.

(** X12.  The verdict composes: [isValidBST] accepts a non-empty tree
    exactly when it accepts both subtrees, every value of the left
    subtree is below the root value and every value of the right subtree
    is above it. *)
Theorem isValidBST_node (l r : tree) (v : Z) :
  BST.isValidBST (Node l v r) = Ret true <->
  BST.isValidBST l = Ret true /\ BST.isValidBST r = Ret true /\
  Forall (fun x => x < v) (inorder l) /\ Forall (fun x => v < x) (inorder r).
Proof.
  rewrite !isValidBST_true_iff. cbn [inorder]. rewrite increasing_app.
  split.
  - intros (Hl & Hvr & Hcross).
    apply StronglySorted_inv in Hvr. destruct Hvr as (Hr & Hv).
    split; [exact Hl | split; [exact Hr | split; [|exact Hv]]].
    apply Forall_forall. intros x Hx. apply Hcross; [exact Hx | now left].
  - intros (Hl & Hr & Hlv & Hvr). split; [exact Hl | split].
    + constructor; assumption.
    + rewrite Forall_forall in Hlv, Hvr.
      intros x y Hx [<- | Hy]; [now apply Hlv|].
      apply Z.lt_trans with v; [now apply Hlv | now apply Hvr].
Qed.

Lemma increasing_NoDup l : strictly_increasing l -> NoDup l.
Proof.
  unfold strictly_increasing. induction 1 as [|x l Hs IH Hx]; constructor.
  - intros Hin. rewrite Forall_forall in Hx. specialize (Hx x Hin). lia.
  - exact IH.
Qed.

(** X13.  [isValidBST] rejects every tree in which some value occurs
    twice: the ordering it checks is strict. *)
Theorem isValidBST_rejects_duplicates (root : tree) :
  ~ NoDup (inorder root) -> BST.isValidBST root = Ret false.
Proof.
  intros Hdup. apply isValidBST_false_iff. intros Hs.
  apply Hdup. now apply increasing_NoDup.
Qed.

Lemma isValidBST_rejects_duplicates_witness :
  BST.isValidBST (Node (Node Leaf 2 Leaf) 2 (Node Leaf 3 Leaf)) = Ret false.
Proof.
  apply (isValidBST_rejects_duplicates
           (Node (Node Leaf 2 Leaf) 2 (Node Leaf 3 Leaf))).
  cbn. intros H. apply NoDup_cons_iff in H. destruct H as (H & _).
  apply H. left. reflexivity.
Defined.

(** ** More on the builder *)

Lemma firstn_snoc (l : list Z) :
  forall n, (n < length l)%nat ->
            firstn (Datatypes.S n) l = firstn n l ++ [nth n l 0].
Proof.
  induction l as [|x l IH]; intros n Hn; [cbn in Hn; lia|].
  destruct n as [|n]; [reflexivity|].
  cbn [length] in Hn. cbn [firstn nth app]. f_equal.
  change (firstn (Datatypes.S n) l = firstn n l ++ [nth n l 0]).
  apply IH. lia.
Qed.

Lemma firstn_next nums i :
  0 <= i < size nums ->
  firstn (Z.to_nat (i + 1)) nums = firstn (Z.to_nat i) nums ++ [get nums i].
Proof.
  unfold size, get. intros H.
  replace (Z.to_nat (i + 1)) with (Datatypes.S (Z.to_nat i)) by lia.
  apply firstn_snoc. lia.
Qed.

(** Whatever [build] returns, the cursor has moved over exactly the
    pre-order sequence of the subtree. *)
Lemma build_prefix nums :
  fits_int nums ->
  forall fuel index lo hi t index',
    0 <= index <= size nums ->
    BST.build fuel nums index lo hi = Ret (t, index') ->
    index <= index' <= size nums /\
    firstn (Z.to_nat index') nums = firstn (Z.to_nat index) nums ++ preorder t /\
    index' = index + Z.of_nat (nodes t).
Proof.
  intros Hv. assert (Hfit := Hv). unfold fits_int, INT_MAX in Hfit.
  pose proof (size_nonneg nums) as Hsz.
  induction fuel as [|fuel IH]; intros index lo hi t index' Hi Hb;
    [discriminate|].
  cbn [BST.build] in Hb.
  rewrite (to_int_id (size nums)) in Hb by (unfold INT_MIN, INT_MAX; lia).
  destruct (index >=? size nums) eqn:E;
    [|rewrite Z.geb_leb in E; apply Z.leb_gt in E].
  { injection Hb as <- <-. cbn [preorder nodes]. rewrite app_nil_r.
    split; [lia | split; [reflexivity | lia]]. }
  rewrite at_int_get in Hb by (assumption || lia). cbn [bind] in Hb.
  destruct ((get nums index <=? lo) || (get nums index >=? hi)).
  { injection Hb as <- <-. cbn [preorder nodes]. rewrite app_nil_r.
    split; [lia | split; [reflexivity | lia]]. }
  rewrite (to_int_id (index + 1)) in Hb by (unfold INT_MIN, INT_MAX; lia).
  destruct (BST.build fuel nums (index + 1) lo (get nums index))
    as [[l i1]| |] eqn:E1; cbn [bind] in Hb; try discriminate.
  destruct (IH (index + 1) lo (get nums index) l i1 ltac:(lia) E1)
    as (Hi1 & Hp1 & Hn1).
  destruct (BST.build fuel nums i1 (get nums index) hi)
    as [[r i2]| |] eqn:E2; cbn [bind] in Hb; try discriminate.
  destruct (IH i1 (get nums index) hi r i2 ltac:(lia) E2)
    as (Hi2 & Hp2 & Hn2).
  injection Hb as <- <-. cbn [preorder nodes].
  split; [lia | split; [|lia]].
  rewrite Hp2, Hp1, firstn_next by lia.
  rewrite <- !app_assoc. reflexivity.
Qed.

Lemma sortedArrayToBST_run_prefix nums :
  fits_int nums ->
  exists t index,
    BST.sortedArrayToBST_run nums = Ret (t, index) /\
    0 <= index <= size nums /\
    preorder t = firstn (Z.to_nat index) nums /\
    index = Z.of_nat (nodes t) /\
    bst_between (Some INT_MIN) (Some INT_MAX) t.
Proof.
  intros Hv.
  destruct (sortedArrayToBST_run_total nums Hv) as (t & index & Hrun & Hi & Hb).
  exists t, index. split; [exact Hrun | split; [exact Hi|]].
  destruct nums as [|x nums'].
  - injection Hrun as <- <-. cbn. repeat split; exact I.
  - set (nums := x :: nums') in *.
    assert (Hbuild : BST.build (Datatypes.S (length nums)) nums 0 INT_MIN INT_MAX
                     = Ret (t, index)) by exact Hrun.
    pose proof (size_nonneg nums) as Hsz.
    destruct (build_prefix nums Hv _ 0 _ _ _ _ (conj (Z.le_refl 0) Hsz) Hbuild)
      as (_ & Hp & Hn).
    split; [|split; [lia | exact Hb]].
    rewrite Hp. reflexivity.
Qed.

Lemma In_preorder_inorder t x : In x (preorder t) <-> In x (inorder t).
Proof.
  induction t as [|l IHl v r IHr]; [reflexivity|].
  cbn [preorder inorder]. cbn [In]. rewrite !in_app_iff. cbn [In].
  rewrite IHl, IHr. tauto.
Qed.

Lemma bst_between_preorder_range a b t :
  bst_between (Some a) (Some b) t ->
  Forall (fun x => a < x < b) (preorder t).
Proof.
  intros H. apply bst_between_inorder in H. destruct H as (_ & H).
  rewrite Forall_forall in H. apply Forall_forall. intros x Hx.
  apply In_preorder_inorder in Hx. exact (H x Hx).
Qed.

Lemma preorder_length t : length (preorder t) = nodes t.
Proof.
  induction t as [|l IHl v r IHr]; [reflexivity|].
  cbn. rewrite length_app. lia.
Qed.

(** X14.  Whatever the input (of a size an [int] can hold), the pre-order
    sequence of the tree [sortedArrayToBST] returns is exactly the part of
    the input the cursor moved over: the builder reads a prefix of the
    input, in order, one node per value read, and never reorders, repeats
    or invents a value. *)
Theorem sortedArrayToBST_consumes_prefix (nums : vec) :
  fits_int nums ->
  exists t index,
    BST.sortedArrayToBST_run nums = Ret (t, index) /\
    0 <= index <= size nums /\
    preorder t = firstn (Z.to_nat index) nums /\
    index = Z.of_nat (nodes t).
Proof.
  intros Hv.
  destruct (sortedArrayToBST_run_prefix nums Hv)
    as (t & index & Hrun & Hi & Hp & Hn & _).
  exists t, index. split; [exact Hrun | split; [exact Hi | split; assumption]].
Qed.

Lemma sortedArrayToBST_consumes_prefix_witness :
  exists t index,
    BST.sortedArrayToBST_run [5; 3; 4; 1; 8] = Ret (t, index) /\
    0 <= index <= size [5; 3; 4; 1; 8] /\
    preorder t = firstn (Z.to_nat index) [5; 3; 4; 1; 8] /\
    index = Z.of_nat (nodes t).
Proof.
  apply (sortedArrayToBST_consumes_prefix [5; 3; 4; 1; 8]).
  unfold fits_int, size, INT_MAX. cbn. lia.
Defined.

(** X15.  On the pre-order sequence of a search tree whose values lie
    strictly between the least and the greatest [int], [sortedArrayToBST]
    returns that very tree and its cursor ends at the end of the
    sequence. *)
Theorem sortedArrayToBST_inverts_preorder (t : tree) :
  strictly_increasing (inorder t) ->
  Forall (fun x => INT_MIN < x < INT_MAX) (preorder t) ->
  fits_int (preorder t) ->
  BST.sortedArrayToBST_run (preorder t) = Ret (t, size (preorder t)) /\
  BST.sortedArrayToBST (preorder t) = Ret t.
Proof.
  intros Hs Hall Hv.
  pose proof (sortedArrayToBST_preorder_in_range t Hs Hall Hv) as Hrun.
  split; [exact Hrun|].
  unfold BST.sortedArrayToBST. rewrite Hrun. reflexivity.
Qed.

Lemma sortedArrayToBST_inverts_preorder_witness :
  BST.sortedArrayToBST_run
    (preorder (Node (Node Leaf (-4) Leaf) 0 (Node (Node Leaf 6 Leaf) 9 Leaf)))
  = Ret (Node (Node Leaf (-4) Leaf) 0 (Node (Node Leaf 6 Leaf) 9 Leaf),
         size (preorder (Node (Node Leaf (-4) Leaf) 0 (Node (Node Leaf 6 Leaf) 9 Leaf)))) /\
  BST.sortedArrayToBST
    (preorder (Node (Node Leaf (-4) Leaf) 0 (Node (Node Leaf 6 Leaf) 9 Leaf)))
  = Ret (Node (Node Leaf (-4) Leaf) 0 (Node (Node Leaf 6 Leaf) 9 Leaf)).
Proof.
  apply (sortedArrayToBST_inverts_preorder
           (Node (Node Leaf (-4) Leaf) 0 (Node (Node Leaf 6 Leaf) 9 Leaf))).
  - unfold strictly_increasing. cbn. repeat constructor.
  - cbn. repeat constructor; unfold INT_MIN, INT_MAX; lia.
  - unfold fits_int, size, INT_MAX. cbn. lia.
Defined.

(** X16.  Building is idempotent on its own output: whatever the input (of
    a size an [int] can hold), feeding the pre-order sequence of the tree
    [sortedArrayToBST] returned back into [sortedArrayToBST] returns the
    same tree. *)
Theorem sortedArrayToBST_rebuild (nums : vec) (t : tree) :
  fits_int nums ->
  BST.sortedArrayToBST nums = Ret t ->
  BST.sortedArrayToBST (preorder t) = Ret t.
Proof.
  intros Hv Ht.
  destruct (sortedArrayToBST_run_prefix nums Hv)
    as (t' & index & Hrun & Hi & Hp & Hn & Hb).
  unfold BST.sortedArrayToBST in Ht. rewrite Hrun in Ht. cbn [bind] in Ht.
  injection Ht as ->.
  assert (Hs : strictly_increasing (inorder t)).
  { apply is_bst_inorder. eapply bst_between_weaken. exact Hb. }
  assert (Hfit : fits_int (preorder t)).
  { unfold fits_int, size in *. rewrite preorder_length. lia. }
  unfold BST.sortedArrayToBST.
  rewrite (sortedArrayToBST_preorder_in_range t Hs
             (bst_between_preorder_range _ _ _ Hb) Hfit).
  reflexivity.
Qed.

Lemma sortedArrayToBST_rebuild_witness :
  BST.sortedArrayToBST (preorder (Node (Node Leaf 3 (Node Leaf 4 Leaf)) 5 Leaf))
  = Ret (Node (Node Leaf 3 (Node Leaf 4 Leaf)) 5 Leaf).
Proof.
  apply (sortedArrayToBST_rebuild [5; 3; 4; 1; 8]).
  - unfold fits_int, size, INT_MAX. cbn. lia.
  - reflexivity.
Defined.

(** X17.  The builder reads its whole input (of a size an [int] can hold)
    exactly when the input is the pre-order sequence of a search tree
    whose values lie strictly between the least and the greatest [int];
    on any other input it stops early and the rest of the input is left
    out of the tree without an error. *)
Theorem sortedArrayToBST_reads_all_iff (nums : vec) :
  fits_int nums ->
  ((exists t, BST.sortedArrayToBST_run nums = Ret (t, size nums)) <->
   (exists t, strictly_increasing (inorder t) /\
              Forall (fun x => INT_MIN < x < INT_MAX) (preorder t) /\
              preorder t = nums)).
Proof.
  intros Hv. split.
  - intros (t & Hrun).
    destruct (sortedArrayToBST_run_prefix nums Hv)
      as (t' & index & Hrun' & Hi & Hp & Hn & Hb).
    rewrite Hrun in Hrun'. injection Hrun' as <- <-.
    exists t. split; [|split].
    + apply is_bst_inorder. eapply bst_between_weaken. exact Hb.
    + exact (bst_between_preorder_range _ _ _ Hb).
    + rewrite Hp. unfold size. rewrite Nat2Z.id. apply firstn_all.
  - intros (t & Hs & Hall & <-). exists t.
    now apply sortedArrayToBST_preorder_in_range.
Qed.

Lemma sortedArrayToBST_reads_all_iff_witness :
  (exists t, BST.sortedArrayToBST_run [5; 3; 4; 1; 8]
             = Ret (t, size [5; 3; 4; 1; 8])) <->
  (exists t, strictly_increasing (inorder t) /\
             Forall (fun x => INT_MIN < x < INT_MAX) (preorder t) /\
             preorder t = [5; 3; 4; 1; 8]).
Proof.
  apply (sortedArrayToBST_reads_all_iff [5; 3; 4; 1; 8]).
  unfold fits_int, size, INT_MAX. cbn. lia.
Defined.

(** ** Printing *)

Lemma printTree_fold t :
  forall cout,
    BST.printTree t cout =
    fold_left (fun out x =>
                 String.append (String.append out (BST.show_int x)) BST.space)
              (preorder t) cout.
Proof.
  induction t as [|l IHl v r IHr]; intros cout; [reflexivity|].
  cbn [BST.printTree preorder fold_left]. cbv zeta.
  rewrite IHr, IHl, fold_left_app. reflexivity.
Qed.

(** X18.  [printTree] writes the values of a tree in pre-order, each in
    decimal and followed by one space.  So printing the tree that
    [sortedArrayToBST] built from an input (of a size an [int] can hold)
    writes the values the builder read, in input order, and writes the
    whole input when the builder read all of it. *)
Theorem printTree_of_built_tree (nums : vec) :
  fits_int nums ->
  exists t index,
    BST.sortedArrayToBST_run nums = Ret (t, index) /\
    BST.printTree t String.EmptyString = show_all (preorder t) /\
    BST.printTree t String.EmptyString
      = show_all (firstn (Z.to_nat index) nums) /\
    (index = size nums ->
     BST.printTree t String.EmptyString = show_all nums).
Proof.
  intros Hv.
  destruct (sortedArrayToBST_run_prefix nums Hv)
    as (t & index & Hrun & Hi & Hp & Hn & _).
  exists t, index. split; [exact Hrun|].
  assert (Hprint : BST.printTree t String.EmptyString = show_all (preorder t))
    by apply printTree_fold.
  split; [exact Hprint | split].
  - rewrite Hprint, Hp. reflexivity.
  - intros ->. rewrite Hprint, Hp. unfold size. rewrite Nat2Z.id.
    now rewrite firstn_all.
Qed.

Lemma printTree_of_built_tree_witness :
  exists t index,
    BST.sortedArrayToBST_run [10; 5; 1; 7; 15; 12; 20] = Ret (t, index) /\
    BST.printTree t String.EmptyString = show_all (preorder t) /\
    BST.printTree t String.EmptyString
      = show_all (firstn (Z.to_nat index) [10; 5; 1; 7; 15; 12; 20]) /\
    (index = size [10; 5; 1; 7; 15; 12; 20] ->
     BST.printTree t String.EmptyString = show_all [10; 5; 1; 7; 15; 12; 20]).
Proof.
  apply (printTree_of_built_tree [10; 5; 1; 7; 15; 12; 20]).
  unfold fits_int, size, INT_MAX. cbn. lia.
Defined.

(** ** Which position the mountain search reports *)

(** X19.  On a mountain array of a size an [int] can hold,
    [findTargetInMountainArray] returns the leftmost position that holds
    the target: a position [t] with the target and no occurrence before
    it is the result, whether [t] lies on the ascending or on the
    descending side. *)
Theorem findTarget_leftmost (arr : vec) (peak target t : Z) :
  mountain arr peak -> fits_int arr ->
  0 <= t < size arr -> get arr t = target ->
  (forall u, 0 <= u < t -> get arr u <> target) ->
  Mountain.findTargetInMountainArray arr target = Ret t.
Proof.
  intros Hm Hv Ht Hg Hfirst.
  destruct (findTarget_mountain arr peak target Hv Hm) as (r & Hr & Hpost).
  rewrite Hr. f_equal.
  destruct Hm as (Hp & Hup & Hdown).
  destruct Hpost as [(Hb & Hgr) | [(Hmiss & Hb & Hgr) | (_ & Hmiss)]].
  - destruct (Z.lt_trichotomy r t) as [Hlt | [? | Hgt]]; [|assumption|].
    + exfalso. apply (Hfirst r); [lia | exact Hgr].
    + pose proof (Hup t r). lia.
  - destruct (Z_le_gt_dec t peak) as [Hle | Hgt].
    + exfalso. apply (Hmiss t); [lia | exact Hg].
    + destruct (Z.lt_trichotomy r t) as [Hlt | [? | Hgt']]; [|assumption|].
      * exfalso. apply (Hfirst r); [lia | exact Hgr].
      * pose proof (Hdown t r). lia.
  - exfalso. exact (Hmiss t Ht Hg).
Qed.

Lemma findTarget_leftmost_witness :
  Mountain.findTargetInMountainArray [1; 3; 5; 8; 7; 4; 2] 4 = Ret 5.
Proof.
  apply (findTarget_leftmost [1; 3; 5; 8; 7; 4; 2] 3 4 5).
  - apply (mountain_intro [1; 3; 5] 8 [7; 4; 2]).
    + unfold strictly_increasing. repeat constructor.
    + unfold strictly_decreasing. repeat constructor.
  - unfold fits_int, size, INT_MAX. cbn. lia.
  - unfold size. cbn. lia.
  - reflexivity.
  - intros u Hu.
    assert (Hc : u = 0 \/ u = 1 \/ u = 2 \/ u = 3 \/ u = 4) by lia.
    destruct Hc as [-> | [-> | [-> | [-> | ->]]]]; discriminate.
Defined.
